(** * Curve interpolation of protovis' SVG scene (src/scene/SvgCurve.js)

    A shallow embedding of [pv.SvgScene.pathBasis], the basis, Hermite,
    cardinal and monotone curve drivers and the two tangent computers.
    [pv.SvgScene.rule] (src/scene/SvgRule.js) only writes attributes of DOM
    nodes and takes no part in these computations; it is not embedded.

    Conventions of the embedding.
    - A JavaScript number is a real number: arithmetic is exact, rounding
      and overflow of IEEE doubles are not part of the model.  Where the
      code would leave the reals (a division by zero, arithmetic on
      [undefined]) the model stops with a [fault] instead of following the
      code through [Infinity] and [NaN].
    - An SVG path string is the list of the commands it spells: the string
      ["C" + a + "," + b + ...] is [CubicTo a b ...], the empty string is
      the empty list and string concatenation is list concatenation.
    - [points[i]] may be [undefined]; reading [.left] or [.top] of
      [undefined] throws a [TypeError].  A variable holding such a value is
      an [option point]. *)

From Stdlib Require Import Reals Lra Lia ZArith List.
From stdpp Require Import base option list gmap.

(** ** Values *)

(** A scene node of the line mark: only [left] and [top] are read. *)
Record point : Type := Point { left : R; top : R }.

(** The object literals [{x: ..., y: ...}]: weighted points and tangents. *)
Record vec : Type := Vec { x : R; y : R }.

(** One command of an SVG path string. *)
Inductive cmd : Type :=
| MoveTo (px py : R)                          (* "M" + px + "," + py *)
| CubicTo (c1x c1y c2x c2y px py : R)         (* "C" + ... six numbers *)
| SmoothCubicTo (c2x c2y px py : R)           (* "S" + ... four numbers *)
| QuadTo (cx cy px py : R).                   (* "Q" + ... four numbers *)

(** An SVG path string. *)
Definition path : Type := list cmd.

(** An entry of a segment array: the two-element array [[move, curve]]. *)
Definition segment : Type := (path * path)%type.

(** What a segmented driver returns: a string or an array of segments. *)
Inductive jsval : Type :=
| Str (s : path)
| Arr (a : list segment).

(** ** Outcomes *)

Inductive fault : Type :=
| TypeError      (* thrown: property read of undefined *)
| DivByZero      (* a division by zero: the code goes on with Infinity or NaN *)
| NaNOperand.    (* arithmetic on undefined: the code goes on with NaN *)

Inductive outcome (A : Type) : Type :=
| Ok (a : A)
| Fail (f : fault).
Arguments Ok {A} a.
Arguments Fail {A} f.

#[export] Instance outcome_ret : MRet outcome := fun _ a => Ok a.
#[export] Instance outcome_bind : MBind outcome := fun _ _ k m =>
  match m with
  | Ok a => k a
  | Fail f => Fail f
  end.

(** [p.left], [p.top]: the object must be defined. *)
Definition deref (p : option point) : outcome point :=
  match p with
  | Some q => Ok q
  | None => Fail TypeError
  end.

(** A tangent read from an array, [t.x], [t.y]. *)
Definition derefv (t : option vec) : outcome vec :=
  match t with
  | Some v => Ok v
  | None => Fail TypeError
  end.

(** A number read from an array and used in arithmetic. *)
Definition num (o : option R) : outcome R :=
  match o with
  | Some r => Ok r
  | None => Fail NaNOperand
  end.

(** [a / b] with a divisor that is not a literal. *)
Definition rdiv (a b : R) : outcome R :=
  if Req_dec_T b 0 then Fail DivByZero else Ok (a / b)%R.

(** [a[i]] for an array and an integer index. *)
Definition at_index {A : Type} (a : list A) (i : Z) : option A :=
  if (i <? 0)%Z then None else a !! Z.to_nat i.

Notation "a .[ i ]" := (at_index a i) (at level 1, left associativity, format "a .[ i ]").

(** [for (i = lo; ...; i++) body], run [n] times from [i]. *)
Fixpoint for_loop {S : Type} (n : nat) (i : Z) (body : Z -> S -> outcome S) (s : S)
  : outcome S :=
  match n with
  | O => Ok s
  | Datatypes.S n' => s' ← body i s; for_loop n' (i + 1)%Z body s'
  end.

(** [for (i = lo; i <= hi; i++) body]. *)
Definition for_range {S : Type} (lo hi : Z) (body : Z -> S -> outcome S) (s : S)
  : outcome S :=
  for_loop (Z.to_nat (hi - lo + 1)) lo body s.

(** The header every driver starts with:
    [if (from == null) { L = points.length; from = 0; to = L - 1 }
     else L = to - from + 1].  Returns [(L, from, to)]. *)
Definition range (points : list point) (from : option Z) (to : Z) : Z * Z * Z :=
  match from with
  | None => let L := Z.of_nat (length points) in (L, 0%Z, (L - 1)%Z)
  | Some f => ((to - f + 1)%Z, f, to)
  end.

(** ** pathBasis *)

Module pathBasis.

(** Matrix to transform basis (b-spline) control points to bezier control
    points. *)
Definition basis : list (list R) :=
  [ [ 1/6; 2/3; 1/6;   0 ];
    [   0; 2/3; 1/3;   0 ];
    [   0; 1/3; 2/3;   0 ];
    [   0; 1/6; 2/3; 1/6 ] ]%R.

(** [basis[i]] and [w[i]] on the constant matrix. *)
Definition row (i : nat) : list R := nth i basis [].
Definition coef (w : list R) (i : nat) : R := nth i w 0%R.

Definition weight (w : list R) (p0 p1 p2 p3 : point) : vec :=
  {| x := coef w 0 * left p0 + coef w 1 * left p1 + coef w 2 * left p2 + coef w 3 * left p3;
     y := coef w 0 * top p0  + coef w 1 * top p1  + coef w 2 * top p2  + coef w 3 * top p3 |}%R.

(** The string built by [convert] from four defined points. *)
Definition curve (p0 p1 p2 p3 : point) : cmd :=
  let b1 := weight (row 1) p0 p1 p2 p3 in
  let b2 := weight (row 2) p0 p1 p2 p3 in
  let b3 := weight (row 3) p0 p1 p2 p3 in
  CubicTo (x b1) (y b1) (x b2) (y b2) (x b3) (y b3).

Definition move (p0 p1 p2 p3 : point) : cmd :=
  let b0 := weight (row 0) p0 p1 p2 p3 in
  MoveTo (x b0) (y b0).

(** [pathBasis(p0, p1, p2, p3)]: [weight] reads all four points. *)
Definition convert (p0 p1 p2 p3 : option point) : outcome path :=
  q0 ← deref p0; q1 ← deref p1; q2 ← deref p2; q3 ← deref p3;
  Ok [curve q0 q1 q2 q3].

(** [pathBasis.segment(p0, p1, p2, p3)]. *)
Definition segment (p0 p1 p2 p3 : option point) : outcome segment :=
  q0 ← deref p0; q1 ← deref p1; q2 ← deref p2; q3 ← deref p3;
  Ok ([move q0 q1 q2 q3], [curve q0 q1 q2 q3]).

End pathBasis.

(** ** Basis spline drivers *)

Definition curveBasis (points : list point) (from : option Z) (to : Z) : outcome path :=
  let '(L, from, to) := range points from to in
  if (L <=? 2)%Z then Ok [] else
  let p0 := points.[from] in
  let p1 := p0 in
  let p2 := p0 in
  let p3 := points.[from + 1] in
  c ← pathBasis.convert p0 p1 p2 p3;
  let path := [] ++ c in
  '(p0, p1, p2, p3, path) ←
    for_range (from + 2) to (fun i '(p0, p1, p2, p3, path) =>
      let p0 := p1 in
      let p1 := p2 in
      let p2 := p3 in
      let p3 := points.[i] in
      c ← pathBasis.convert p0 p1 p2 p3;
      Ok (p0, p1, p2, p3, path ++ c)) (p0, p1, p2, p3, path);
  c ← pathBasis.convert p1 p2 p3 p3;
  let path := path ++ c in
  c ← pathBasis.convert p2 p3 p3 p3;
  let path := path ++ c in
  Ok path.

Definition curveBasisSegments (points : list point) (from : option Z) (to : Z)
  : outcome jsval :=
  let '(L, from, to) := range points from to in
  if (L <=? 2)%Z then Ok (Str []) else
  let paths := [] in
  let p0 := points.[from] in
  let p1 := p0 in
  let p2 := p0 in
  let p3 := points.[from + 1] in
  firstPath ← pathBasis.segment p0 p1 p2 p3;
  let p0 := p1 in
  let p1 := p2 in
  let p2 := p3 in
  let p3 := points.[from + 2] in
  c ← pathBasis.convert p0 p1 p2 p3;
  let firstPath := (fst firstPath, snd firstPath ++ c) in
  let paths := paths ++ [firstPath] in
  '(p0, p1, p2, p3, paths) ←
    for_range (from + 3) to (fun i '(p0, p1, p2, p3, paths) =>
      let p0 := p1 in
      let p1 := p2 in
      let p2 := p3 in
      let p3 := points.[i] in
      s ← pathBasis.segment p0 p1 p2 p3;
      Ok (p0, p1, p2, p3, paths ++ [s])) (p0, p1, p2, p3, paths);
  lastPath ← pathBasis.segment p1 p2 p3 p3;
  c ← pathBasis.convert p2 p3 p3 p3;
  let lastPath := (fst lastPath, snd lastPath ++ c) in
  let paths := paths ++ [lastPath] in
  Ok (Arr paths).

(** ** Hermite evaluator *)

Definition curveHermite (points : list point) (tangents : list vec)
    (from : option Z) (to : Z) : outcome path :=
  let '(L, from, to) := range points from to in
  let T := Z.of_nat (length tangents) in
  if (T <? 1)%Z || (negb (L =? T)%Z && negb (L =? T + 2)%Z) then Ok [] else
  let quad := negb (L =? T)%Z in
  let path := [] in
  let p0 := points.[from] in
  let p := points.[from + 1] in
  let t0 := tangents.[0] in
  let t := t0 in
  let pi := (from + 1)%Z in
  '(path, p0, pi) ←
    (if quad then
       q ← deref p; u0 ← derefv t0;
       Ok (path ++ [QuadTo (left q - x u0 * 2 / 3) (top q - y u0 * 2 / 3)
                           (left q) (top q)],
           points.[from + 1], (from + 2)%Z)
     else Ok (path, p0, pi));
  '(path, p, t, pi) ←
    (if (1 <? T)%Z then
       let t := tangents.[1] in
       let p := points.[pi] in
       let pi := (pi + 1)%Z in
       q0 ← deref p0; u0 ← derefv t0; q ← deref p; u ← derefv t;
       let path := path ++ [CubicTo (left q0 + x u0) (top q0 + y u0)
                                    (left q - x u) (top q - y u)
                                    (left q) (top q)] in
       for_range 2 (T - 1) (fun i '(path, p, t, pi) =>
         let p := points.[pi] in
         let t := tangents.[i] in
         q ← deref p; u ← derefv t;
         Ok (path ++ [SmoothCubicTo (left q - x u) (top q - y u)
                                    (left q) (top q)],
             p, t, (pi + 1)%Z)) (path, p, t, pi)
     else Ok (path, p, t, pi));
  if quad then
    let lp := points.[pi] in
    q ← deref p; u ← derefv t; l ← deref lp;
    Ok (path ++ [QuadTo (left q + x u * 2 / 3) (top q + y u * 2 / 3)
                        (left l) (top l)])
  else Ok path.

Definition curveHermiteSegments (points : list point) (tangents : list vec)
    (from : option Z) (to : Z) : outcome (list segment) :=
  let '(L, from, to) := range points from to in
  let T := Z.of_nat (length tangents) in
  if (T <? 1)%Z || (negb (L =? T)%Z && negb (L =? T + 2)%Z) then Ok [] else
  let quad := negb (L =? T)%Z in
  let paths := [] in
  let p0 := points.[from] in
  let p := p0 in
  let t0 := tangents.[0] in
  let t := t0 in
  let pi := (from + 1)%Z in
  '(paths, p, pi) ←
    (if quad then
       let p := points.[from + 1] in
       q0 ← deref p0; q ← deref p; u ← derefv t;
       Ok (paths ++ [([MoveTo (left q0) (top q0)],
                      [QuadTo (left q - x u * 2 / 3) (top q - y u * 2 / 3)
                              (left q) (top q)])],
           p, (from + 2)%Z)
     else Ok (paths, p, pi));
  '(paths, p0, t0, p, t, pi) ←
    for_range 1 (T - 1) (fun i '(paths, p0, t0, p, t, pi) =>
      let p0 := p in
      let t0 := t in
      let p := points.[pi] in
      let t := tangents.[i] in
      q0 ← deref p0; u0 ← derefv t0; q ← deref p; u ← derefv t;
      Ok (paths ++ [([MoveTo (left q0) (top q0)],
                     [CubicTo (left q0 + x u0) (top q0 + y u0)
                              (left q - x u) (top q - y u)
                              (left q) (top q)])],
          p0, t0, p, t, (pi + 1)%Z)) (paths, p0, t0, p, t, pi);
  if quad then
    let lp := points.[pi] in
    q ← deref p; u ← derefv t; l ← deref lp;
    Ok (paths ++ [([MoveTo (left q) (top q)],
                   [QuadTo (left q + x u * 2 / 3) (top q + y u * 2 / 3)
                           (left l) (top l)])])
  else Ok paths.

(** ** Cardinal spline *)

Definition cardinalTangents (points : list point) (tension : R)
    (from : option Z) (to : Z) : outcome (list vec) :=
  let '(L, from, to) := range points from to in
  let tangents := [] in
  let a := ((1 - tension) / 2)%R in
  let p0 := points.[from] in
  let p1 := points.[from + 1] in
  let p2 := points.[from + 2] in
  '(tangents, p0, p1, p2) ←
    for_range (from + 3) to (fun i '(tangents, p0, p1, p2) =>
      q2 ← deref p2; q0 ← deref p0;
      let tangents := tangents ++ [{| x := a * (left q2 - left q0);
                                      y := a * (top q2 - top q0) |}] in
      let p0 := p1 in
      let p1 := p2 in
      let p2 := points.[i] in
      Ok (tangents, p0, p1, p2)) (tangents, p0, p1, p2);
  q2 ← deref p2; q0 ← deref p0;
  Ok (tangents ++ [{| x := a * (left q2 - left q0);
                      y := a * (top q2 - top q0) |}]).

Definition curveCardinal (points : list point) (tension : R)
    (from : option Z) (to : Z) : outcome path :=
  let '(L, from, to) := range points from to in
  if (L <=? 2)%Z then Ok [] else
  ts ← cardinalTangents points tension (Some from) to;
  curveHermite points ts (Some from) to.

Definition curveCardinalSegments (points : list point) (tension : R)
    (from : option Z) (to : Z) : outcome jsval :=
  let '(L, from, to) := range points from to in
  if (L <=? 2)%Z then Ok (Str []) else
  ts ← cardinalTangents points tension (Some from) to;
  a ← curveHermiteSegments points ts (Some from) to;
  Ok (Arr a).

(** ** Monotone (Fritsch-Carlson) tangents *)

(** [a[k] = v] where [v] was read from another array and may be
    [undefined]: the cell then reads as [undefined]. *)
Definition set_cell (a : gmap Z R) (k : Z) (v : option R) : gmap Z R :=
  match v with
  | Some r => <[k := r]> a
  | None => delete k a
  end.

(** [Math.abs(v) < c]; [Math.abs(undefined)] is [NaN] and compares false. *)
Definition abs_lt (v : option R) (c : R) : bool :=
  match v with
  | Some r => if Rlt_dec (Rabs r) c then true else false
  | None => false
  end.

(** [v == 0]; [undefined == 0] is false. *)
Definition is_zero (v : option R) : bool :=
  match v with
  | Some r => if Req_dec_T r 0 then true else false
  | None => false
  end.

Module monotone.

(** The slope stored in [d[k]] for the points [pj = points[j]] and
    [pj1 = points[j+1]]. *)
Definition secant (pj pj1 : point) : outcome R :=
  let den := (left pj1 - left pj)%R in
  if Rle_dec (Rabs den) 1e-12 then Ok 0%R
  else rdiv (top pj1 - top pj) den.

(** Compute the slopes of the secant lines between successive points. *)
Definition secants (points : list point) (from L : Z) : outcome (gmap Z R) :=
  for_range 0 (L - 2) (fun k d =>
    let j := (from + k)%Z in
    pj1 ← deref points.[j + 1]; pj ← deref points.[j];
    dk ← secant pj pj1;
    Ok (<[k := dk]> d)) ∅.

(** Initialize the tangents at every point as the average of the secants.
    Returns [(m, dx)]. *)
Definition init (points : list point) (from L : Z) (d : gmap Z R)
  : outcome (gmap Z R * gmap Z R) :=
  let m := set_cell ∅ 0 (d !! 0%Z) in
  q1 ← deref points.[from + 1]; q0 ← deref points.[from];
  let dx := <[0%Z := (left q1 - left q0)%R]> ∅ in
  '(m, dx) ←
    for_range 1 (L - 2) (fun k '(m, dx) =>
      let j := (from + k)%Z in
      a ← num (d !! (k - 1)%Z); b ← num (d !! k);
      let m := <[k := ((a + b) / 2)%R]> m in
      pj1 ← deref points.[j + 1]; pj0 ← deref points.[j - 1];
      let dx := <[k := ((left pj1 - left pj0) / 2)%R]> dx in
      Ok (m, dx)) (m, dx);
  (* the loop leaves k = max(1, L - 1) and j = from + k *)
  let k := Z.max 1 (L - 1) in
  let j := (from + k)%Z in
  let m := set_cell m k (d !! (k - 1)%Z) in
  pj ← deref points.[j]; pj0 ← deref points.[j - 1];
  let dx := <[k := (left pj - left pj0)%R]> dx in
  Ok (m, dx).

(** Step 3: flat secants flatten both adjacent tangents. *)
Definition flatten (L : Z) (d m : gmap Z R) : outcome (gmap Z R) :=
  for_range 0 (L - 2) (fun k m =>
    if is_zero (d !! k)
    then Ok (<[(k + 1)%Z := 0%R]> (<[k := 0%R]> m))
    else Ok m) m.

(** Steps 4 and 5: the clamp of the pair [(m[k], m[k+1])]. *)
Definition clamp (L : Z) (d m : gmap Z R) : outcome (gmap Z R) :=
  for_range 0 (L - 2) (fun k m =>
    if abs_lt (m !! k) 1e-5 || abs_lt (m !! (k + 1)%Z) 1e-5 then Ok m else
    mk ← num (m !! k); dk ← num (d !! k); ak ← rdiv mk dk;
    mk1 ← num (m !! (k + 1)%Z); bk ← rdiv mk1 dk;
    let s := (ak * ak + bk * bk)%R in
    if Rlt_dec 9 s then
      tk ← rdiv 3 (sqrt s);
      Ok (<[(k + 1)%Z := (tk * bk * dk)%R]> (<[k := (tk * ak * dk)%R]> m))
    else Ok m) m.

(** The tangent vectors pushed by the last loop. *)
Definition vectors (L : Z) (m dx : gmap Z R) : outcome (list vec) :=
  for_range 0 (L - 1) (fun i tangents =>
    mi ← num (m !! i);
    let len := (1 + mi * mi)%R in
    dxi ← num (dx !! i);
    tx ← rdiv (dxi / 3) len; ty ← rdiv (mi * dxi / 3) len;
    Ok (tangents ++ [{| x := tx; y := ty |}])) [].

End monotone.

Definition monotoneTangents (points : list point) (from : option Z) (to : Z)
  : outcome (list vec) :=
  let '(L, from, to) := range points from to in
  d ← monotone.secants points from L;
  '(m, dx) ← monotone.init points from L d;
  m ← monotone.flatten L d m;
  m ← monotone.clamp L d m;
  monotone.vectors L m dx.

Definition curveMonotone (points : list point) (from : option Z) (to : Z)
  : outcome path :=
  let '(L, from, to) := range points from to in
  if (L <=? 2)%Z then Ok [] else
  ts ← monotoneTangents points (Some from) to;
  curveHermite points ts (Some from) to.

Definition curveMonotoneSegments (points : list point) (from : option Z) (to : Z)
  : outcome jsval :=
  let '(L, from, to) := range points from to in
  if (L <=? 2)%Z then Ok (Str []) else
  ts ← monotoneTangents points (Some from) to;
  a ← curveHermiteSegments points ts (Some from) to;
  Ok (Arr a).

(** * Specification

    The predicates and reference definitions the properties are stated
    with. *)

(** ** Ranges *)

(** The length [L] of the range a driver works on. *)
Definition range_length (points : list point) (from : option Z) (to : Z) : Z :=
  (range points from to).1.1.

(** The first index of the range. *)
Definition range_start (points : list point) (from : option Z) (to : Z) : Z :=
  (range points from to).1.2.

(** The range lies inside the array: every [points[i]] read is defined. *)
Definition in_bounds (points : list point) (from : option Z) (to : Z) : Prop :=
  let '(_, f, t) := range points from to in
  (0 <= f)%Z ∧ (t < Z.of_nat (length points))%Z.

(** The same for a range given by its start and length. *)
Definition valid (points : list point) (f L : Z) : Prop :=
  (0 <= f)%Z ∧ (f + L <= Z.of_nat (length points))%Z.

(** The points of the range, in order. *)
Definition range_points (points : list point) (from : option Z) (to : Z) : list point :=
  take (Z.to_nat (range_length points from to))
       (drop (Z.to_nat (range_start points from to)) points).

(** ** Outcomes *)

(** [wp m Q E]: the computation [m] returns a value satisfying [Q], or
    stops with a fault allowed by [E]. *)
Definition wp {A : Type} (m : outcome A) (Q : A → Prop) (E : fault → Prop) : Prop :=
  match m with
  | Ok a => Q a
  | Fail f => E f
  end.

(** No fault is allowed: the computation returns. *)
Definition total : fault → Prop := fun _ => False.

(** Faults other than a division by zero. *)
Definition no_div : fault → Prop := fun f => f ≠ DivByZero.

(** ** Commands *)

Definition is_CubicTo (c : cmd) : Prop :=
  match c with
  | CubicTo _ _ _ _ _ _ => True
  | _ => False
  end.

Definition is_SmoothCubicTo (c : cmd) : Prop :=
  match c with
  | SmoothCubicTo _ _ _ _ => True
  | _ => False
  end.

Definition is_QuadTo (c : cmd) : Prop :=
  match c with
  | QuadTo _ _ _ _ => True
  | _ => False
  end.

(** ** The basis spline *)


(** The reference definition: the first point twice more at the start, the
    last point twice more at the end ... *)
Definition pad (ps : list point) : list point :=
  match ps with
  | [] => []
  | first :: _ =>
      let lst := List.last ps first in
      [first; first] ++ ps ++ [lst; lst]
  end.

(** ... a window of four points slid across the padded sequence ... *)
Fixpoint windows4 (l : list point) : list (point * point * point * point) :=
  match l with
  | [] => []
  | a :: t =>
      match t with
      | b :: c :: d :: _ => (a, b, c, d) :: windows4 t
      | _ => []
      end
  end.

(** ... and one basis-to-Bezier conversion per window. *)
Definition curveBasis_reference (ps : list point) : path :=
  map (fun '(p0, p1, p2, p3) => pathBasis.curve p0 p1 p2 p3) (windows4 (pad ps)).

(** ** Cardinal tangents *)

(** The tangent [a * (p2 - p0)] of the point between [p0] and [p2]. *)
Definition cardinal_tangent (tension : R) (p0 p2 : point) : vec :=
  {| x := (1 - tension) / 2 * (left p2 - left p0);
     y := (1 - tension) / 2 * (top p2 - top p0) |}%R.

(** What [cardinalTangents] computes on a range starting at [f]: [n]
    tangents, the [i]-th from the points [f + i] and [f + i + 2]. *)
Definition cardinal_post (points : list point) (tension : R) (f n : Z)
    (ts : list vec) : Prop :=
  Z.of_nat (length ts) = n ∧
  ∀ (i : nat) (pm pp : point),
    (Z.of_nat i < n)%Z →
    points.[f + Z.of_nat i] = Some pm →
    points.[f + Z.of_nat i + 2] = Some pp →
    ts !! i = Some (cardinal_tangent tension pm pp).

(** ** Monotone tangents *)

(** Adjacent points go right and never down: strictly increasing [left],
    nondecreasing [top]. *)
Definition increasing (points : list point) : Prop :=
  ∀ (k : nat) (p q : point),
    points !! k = Some p → points !! S k = Some q →
    (left p < left q)%R ∧ (top p <= top q)%R.

(** The secants of the range, as stored in [d]. *)
Definition secants_post (points : list point) (f L : Z) (d : gmap Z R) : Prop :=
  ∀ k : Z, (0 <= k < L - 1)%Z →
    ∃ (p q : point) (v : R),
      points.[f + k] = Some p ∧ points.[f + k + 1] = Some q ∧
      monotone.secant p q = Ok v ∧ d !! k = Some v.

(** Cells [0 .. n - 1] hold numbers, which satisfy [P] when the points are
    increasing. *)
Definition cells (points : list point) (P : R → Prop) (n : Z) (a : gmap Z R) : Prop :=
  ∀ k : Z, (0 <= k < n)%Z → ∃ v : R, a !! k = Some v ∧ (increasing points → P v).

(** Flat secants have flat tangents at both ends. *)
Definition flat (L : Z) (d m : gmap Z R) : Prop :=
  ∀ k : Z, (0 <= k < L - 1)%Z → d !! k = Some 0%R →
    m !! k = Some 0%R ∧ m !! (k + 1)%Z = Some 0%R.

(** What the clamp may do to the slopes [m]: each cell keeps its value up
    to a factor in (0, 1]. *)
Definition scaled (m m' : gmap Z R) : Prop :=
  ∀ i : Z,
    match m !! i with
    | Some v => ∃ c : R, (0 < c <= 1)%R ∧ m' !! i = Some (c * v)%R
    | None => m' !! i = None
    end.

(** The last loop: one tangent vector per point. *)
Definition vectors_post (L : Z) (m dx : gmap Z R) (ts : list vec) : Prop :=
  Z.of_nat (length ts) = Z.max 0 L ∧
  ∀ (i : Z) (mi dxi : R), (0 <= i < L)%Z →
    m !! i = Some mi → dx !! i = Some dxi →
    ts !! Z.to_nat i = Some {| x := dxi / 3 / (1 + mi * mi);
                               y := mi * dxi / 3 / (1 + mi * mi) |}%R.

(** What [monotoneTangents] returns on a range [f .. f + L - 1] of at least
    two points. *)
Definition tangents_post (points : list point) (f L : Z) (ts : list vec) : Prop :=
  Z.of_nat (length ts) = L ∧
  (∀ i : Z, (0 <= i < L)%Z →
     ∃ t : vec, ts !! Z.to_nat i = Some t ∧
                (increasing points → (0 <= y t)%R ∧ (0 < x t)%R)) ∧
  (∀ (k : Z) (p q : point), (0 <= k < L - 1)%Z →
     points.[f + k] = Some p → points.[f + k + 1] = Some q →
     monotone.secant p q = Ok 0%R →
     ∃ t1 t2 : vec, ts !! Z.to_nat k = Some t1 ∧ ts !! Z.to_nat (k + 1) = Some t2 ∧
                    y t1 = 0%R ∧ y t2 = 0%R).

(** ** The commands of the Hermite evaluator *)

(** The point a command ends at. *)
Definition endpoint (c : cmd) : vec :=
  match c with
  | MoveTo px py => {| x := px; y := py |}
  | CubicTo _ _ _ _ px py => {| x := px; y := py |}
  | SmoothCubicTo _ _ px py => {| x := px; y := py |}
  | QuadTo _ _ px py => {| x := px; y := py |}
  end.

(** The points a command names: its control points, then its end point. *)
Definition controls (c : cmd) : list vec :=
  match c with
  | MoveTo px py => [{| x := px; y := py |}]
  | CubicTo c1x c1y c2x c2y px py =>
      [{| x := c1x; y := c1y |}; {| x := c2x; y := c2y |}; {| x := px; y := py |}]
  | SmoothCubicTo c2x c2y px py => [{| x := c2x; y := c2y |}; {| x := px; y := py |}]
  | QuadTo cx cy px py => [{| x := cx; y := cy |}; {| x := px; y := py |}]
  end.

(** A data point as a pair of coordinates. *)
Definition at_point (p : point) : vec := {| x := left p; y := top p |}.

(** The four strings the Hermite evaluators build: the quadratic into
    [q] with tangent [u] at [q], the cubic from [q0] with tangent [u0] to
    [q] with tangent [u], its smooth form, and the quadratic out of [q]
    with tangent [u] to [l]. *)
Definition quad_in_cmd (q : point) (u : vec) : cmd :=
  QuadTo (left q - x u * 2 / 3) (top q - y u * 2 / 3) (left q) (top q).

Definition cubic_cmd (q0 : point) (u0 : vec) (q : point) (u : vec) : cmd :=
  CubicTo (left q0 + x u0) (top q0 + y u0) (left q - x u) (top q - y u) (left q) (top q).

Definition smooth_cmd (q : point) (u : vec) : cmd :=
  SmoothCubicTo (left q - x u) (top q - y u) (left q) (top q).

Definition quad_out_cmd (q : point) (u : vec) (l : point) : cmd :=
  QuadTo (left q + x u * 2 / 3) (top q + y u * 2 / 3) (left l) (top l).

(** The command that joins point [k] of the range to point [k + 1].  With
    [quad] the tangents belong to the interior points only and the two
    boundary commands are quadratic; [explicit] is the segment form, where
    every cubic names both control points. *)
Definition hermite_command (points : list point) (tangents : list vec) (f L : Z)
    (quad explicit : bool) (k : Z) (c : cmd) : Prop :=
  ∃ q0 q : point,
    points.[f + k] = Some q0 ∧ points.[f + k + 1] = Some q ∧
    if quad then
      (k = 0%Z ∧ ∃ u : vec, tangents.[0] = Some u ∧ c = quad_in_cmd q u) ∨
      (k = (L - 2)%Z ∧ ∃ u : vec, tangents.[k - 1] = Some u ∧ c = quad_out_cmd q0 u q) ∨
      ((0 < k < L - 2)%Z ∧ ∃ u0 u : vec,
         tangents.[k - 1] = Some u0 ∧ tangents.[k] = Some u ∧
         c = if explicit || (k =? 1)%Z then cubic_cmd q0 u0 q u else smooth_cmd q u)
    else
      ∃ u0 u : vec,
        tangents.[k] = Some u0 ∧ tangents.[k + 1] = Some u ∧
        c = if explicit || (k =? 0)%Z then cubic_cmd q0 u0 q u else smooth_cmd q u.

(** A path of [L - 1] commands, the [k]-th being [hermite_command] [k]. *)
Definition hermite_path (points : list point) (tangents : list vec) (f L : Z)
    (quad explicit : bool) (pth : list cmd) : Prop :=
  Z.of_nat (length pth) = (L - 1)%Z ∧
  ∀ k : nat, (Z.of_nat k < L - 1)%Z →
    ∃ c : cmd, pth !! k = Some c ∧
               hermite_command points tangents f L quad explicit (Z.of_nat k) c.

(** An array of [L - 1] segments, the [k]-th moving to point [k] of the
    range and drawing [hermite_command] [k] in its explicit form. *)
Definition hermite_segments (points : list point) (tangents : list vec) (f L : Z)
    (quad : bool) (segs : list segment) : Prop :=
  Z.of_nat (length segs) = (L - 1)%Z ∧
  ∀ k : nat, (Z.of_nat k < L - 1)%Z →
    ∃ (q0 : point) (c : cmd),
      points.[f + Z.of_nat k] = Some q0 ∧
      segs !! k = Some ([MoveTo (left q0) (top q0)], [c]) ∧
      hermite_command points tangents f L quad true (Z.of_nat k) c.

(** The control point a command names last, before its end point. *)
Definition last_control (c : cmd) : vec :=
  match c with
  | MoveTo px py => {| x := px; y := py |}
  | CubicTo _ _ c2x c2y _ _ => {| x := c2x; y := c2y |}
  | SmoothCubicTo c2x c2y _ _ => {| x := c2x; y := c2y |}
  | QuadTo cx cy _ _ => {| x := cx; y := cy |}
  end.

(** The mirror image of [v] in [e]: the first control point an SVG
    renderer supplies for a smooth cubic that follows a command ending at
    [e] with last control point [v]. *)
Definition reflect (e v : vec) : vec :=
  {| x := 2 * x e - x v; y := 2 * y e - y v |}%R.

(** ** The segments of the basis spline *)

(** The starting point and the curve of a window of four points. *)
Definition window_move (w : point * point * point * point) : cmd :=
  let '(p0, p1, p2, p3) := w in pathBasis.move p0 p1 p2 p3.

Definition window_curve (w : point * point * point * point) : cmd :=
  let '(p0, p1, p2, p3) := w in pathBasis.curve p0 p1 p2 p3.

(** The segment of one window, and the segment that draws two windows in
    a row. *)
Definition window_segment (w : point * point * point * point) : segment :=
  ([window_move w], [window_curve w]).

Definition merged_segment (w w' : point * point * point * point) : segment :=
  ([window_move w], [window_curve w; window_curve w']).

(** The reference definition of the segmented spline: over the windows of
    the padded points, the first two windows make one segment, the last
    two make one segment, and every window between makes its own. *)
Definition curveBasisSegments_reference (ps : list point) : list segment :=
  let W := windows4 (pad ps) in
  match W, drop (length ps - 1) W with
  | w0 :: w1 :: _, [wa; wb] =>
      merged_segment w0 w1 ::
        (window_segment <$> take (length ps - 3) (drop 2 W)) ++ [merged_segment wa wb]
  | _, _ => []
  end.

(** ** The Fritsch-Carlson bound *)






(** ** Faults *)

(** The only fault allowed is the [TypeError] of a read through
    [undefined]. *)
Definition type_error : fault → Prop := fun f => f = TypeError.

(** ** Proof steps *)

(** Lengths of lists built by [++], for [lia]. *)
Ltac len_tac :=
  unfold segment, path in *;
  repeat (progress (rewrite ?length_app; simpl length)); lia.

(** Reading the same cell through another index expression. *)
Ltac same_cell H := rewrite <- H; f_equal; lia.

(** * Properties *)

(** ** Reasoning about outcomes and loops *)

Lemma wp_ok {A : Type} (a : A) (Q : A → Prop) E : Q a → wp (Ok a) Q E.
Proof. exact (fun H => H). Qed.

Lemma wp_bind {A B : Type} (m : outcome A) (k : A → outcome B) (Q : B → Prop) E :
  wp m (fun a => wp (k a) Q E) E → wp (m ≫= k) Q E.
Proof. destruct m; exact (fun H => H). Qed.

Lemma wp_mono {A : Type} (m : outcome A) (Q Q' : A → Prop) E :
  wp m Q E → (∀ a, Q a → Q' a) → wp m Q' E.
Proof. destruct m; simpl; auto. Qed.

Lemma wp_total_inv {A : Type} (m : outcome A) (Q : A → Prop) :
  wp m Q total → ∃ a, m = Ok a ∧ Q a.
Proof. destruct m; simpl; [eauto | intros []]. Qed.

Lemma wp_result {A : Type} (m : outcome A) (Q : A → Prop) E (a : A) :
  wp m Q E → m = Ok a → Q a.
Proof. intros H ->. exact H. Qed.

Lemma wp_for_loop {St : Type} (I : Z → St → Prop) E (body : Z → St → outcome St)
    (n : nat) (i : Z) (s : St) :
  I i s →
  (∀ j s, (i <= j < i + Z.of_nat n)%Z → I j s → wp (body j s) (I (j + 1)%Z) E) →
  wp (for_loop n i body s) (I (i + Z.of_nat n)%Z) E.
Proof.
  revert i s. induction n as [|n IH]; intros i s Hi Hbody.
  - simpl. replace (i + Z.of_nat 0)%Z with i by lia. exact Hi.
  - simpl. apply wp_bind.
    eapply wp_mono; [apply (Hbody i s); [lia | exact Hi]|].
    intros s' Hs'. simpl.
    replace (i + Z.of_nat (S n))%Z with (i + 1 + Z.of_nat n)%Z by lia.
    apply IH; [exact Hs'|].
    intros j s0 Hj. apply Hbody. lia.
Qed.

Lemma wp_for_range {St : Type} (I : Z → St → Prop) E (body : Z → St → outcome St)
    (lo hi : Z) (s : St) :
  (lo <= hi + 1)%Z →
  I lo s →
  (∀ j s, (lo <= j <= hi)%Z → I j s → wp (body j s) (I (j + 1)%Z) E) →
  wp (for_range lo hi body s) (I (hi + 1)%Z) E.
Proof.
  intros Hle Hi Hbody. unfold for_range.
  replace (hi + 1)%Z with (lo + Z.of_nat (Z.to_nat (hi - lo + 1)))%Z by lia.
  apply wp_for_loop; [exact Hi|].
  intros j s0 Hj. apply Hbody. lia.
Qed.

Lemma for_range_empty {St : Type} (body : Z → St → outcome St) (lo hi : Z) (s : St) :
  (hi < lo)%Z → for_range lo hi body s = Ok s.
Proof.
  intros H. unfold for_range.
  replace (Z.to_nat (hi - lo + 1)) with 0%nat by lia. reflexivity.
Qed.

(** Array reads. *)

Lemma at_index_lookup {A : Type} (a : list A) (i : Z) :
  (0 <= i)%Z → a.[i] = a !! Z.to_nat i.
Proof.
  intros H. unfold at_index.
  destruct (i <? 0)%Z eqn:E; [apply Z.ltb_lt in E; lia | reflexivity].
Qed.

Lemma at_index_defined {A : Type} (a : list A) (i : Z) :
  (0 <= i < Z.of_nat (length a))%Z → ∃ v, a.[i] = Some v.
Proof.
  intros H. rewrite at_index_lookup by lia.
  destruct (lookup_lt_is_Some_2 a (Z.to_nat i)) as [v Hv]; [lia | eauto].
Qed.

Lemma at_index_bound {A : Type} (a : list A) (i : Z) (v : A) :
  a.[i] = Some v → (0 <= i < Z.of_nat (length a))%Z.
Proof.
  unfold at_index. destruct (i <? 0)%Z eqn:E; [discriminate|].
  apply Z.ltb_ge in E. intros H. apply lookup_lt_Some in H. lia.
Qed.

Lemma wp_deref (points : list point) (i : Z) (Q : point → Prop) E :
  (0 <= i < Z.of_nat (length points))%Z →
  (∀ p, points.[i] = Some p → Q p) →
  wp (deref points.[i]) Q E.
Proof.
  intros Hi HQ. destruct (at_index_defined points i Hi) as [p Hp].
  rewrite Hp. simpl. auto.
Qed.

(** The bounds of a range, unfolded. *)
Lemma in_bounds_range (points : list point) (from : option Z) (to : Z) :
  in_bounds points from to →
  ∃ L f t, range points from to = (L, f, t) ∧ L = (t - f + 1)%Z ∧
           (0 <= f)%Z ∧ (t < Z.of_nat (length points))%Z ∧
           range_length points from to = L ∧ range_start points from to = f.
Proof.
  unfold in_bounds, range_length, range_start, range.
  destruct from as [f|]; simpl; intros [H0 H1].
  - exists (to - f + 1)%Z, f, to. repeat split; auto.
  - exists (Z.of_nat (length points)), 0%Z, (Z.of_nat (length points) - 1)%Z.
    repeat split; auto; lia.
Qed.

Lemma wp_total_eq {A : Type} (m : outcome A) (r : A) :
  wp m (fun a => a = r) total → m = Ok r.
Proof. destruct m; simpl; [intros ->; reflexivity | intros []]. Qed.

Lemma wp_derefv (tangents : list vec) (i : Z) (Q : vec → Prop) E :
  (0 <= i < Z.of_nat (length tangents))%Z →
  (∀ v, tangents.[i] = Some v → Q v) →
  wp (derefv tangents.[i]) Q E.
Proof.
  intros Hi HQ. destruct (at_index_defined tangents i Hi) as [v Hv].
  rewrite Hv. simpl. auto.
Qed.

Lemma wp_deref_or (o : option point) (Q : point → Prop) E :
  E TypeError ∨ is_Some o →
  (∀ p, o = Some p → Q p) →
  wp (deref o) Q E.
Proof.
  intros H HQ. destruct o as [p|]; simpl; [auto|].
  destruct H as [H|[p H]]; [exact H | discriminate].
Qed.

Lemma wp_num_or (o : option R) (Q : R → Prop) E :
  E NaNOperand ∨ is_Some o →
  (∀ r, o = Some r → Q r) →
  wp (num o) Q E.
Proof.
  intros H HQ. destruct o as [r|]; simpl; [auto|].
  destruct H as [H|[r H]]; [exact H | discriminate].
Qed.

Lemma wp_rdiv (a b : R) (Q : R → Prop) E :
  E DivByZero ∨ b ≠ 0%R →
  (b ≠ 0%R → Q (a / b)%R) →
  wp (rdiv a b) Q E.
Proof.
  intros H HQ. unfold rdiv. destruct (Req_dec_T b 0) as [Hb|Hb]; simpl; [|auto].
  destruct H as [H|H]; [exact H | contradiction].
Qed.

Lemma wp_no_div {A : Type} (m : outcome A) (Q : A → Prop) :
  wp m Q no_div → m ≠ Fail DivByZero.
Proof. destruct m; simpl; [discriminate | intros H [= ->]; apply H; reflexivity]. Qed.

(** ** The basis matrix *)

Section Basis.
Import pathBasis.


End Basis.

(** ** Short ranges *)

Section ShortRange.
Variables (points : list point) (from : option Z) (to : Z).
Hypothesis short : (range_length points from to <= 2)%Z.

Lemma short_range_leb : ∃ f t L, range points from to = (L, f, t) ∧ (L <=? 2)%Z = true.
Proof using short.
  unfold range_length in short.
  destruct (range points from to) as [[L f] t]. simpl in short.
  exists f, t, L. split; [reflexivity|]. apply Z.leb_le, short.
Qed.

(** With at most two points in range the continuous drivers return the
    empty string. *)
Lemma short_range_paths (tension : R) :
  curveBasis points from to = Ok [] ∧
  curveCardinal points tension from to = Ok [] ∧
  curveMonotone points from to = Ok [].
Proof using short.
  destruct short_range_leb as (f & t & L & E & Hle).
  unfold curveBasis, curveCardinal, curveMonotone. rewrite E, Hle. auto.
Qed.

(** The segmented drivers return the empty string as well, where an
    array is documented. *)
Lemma short_range_segments (tension : R) :
  curveBasisSegments points from to = Ok (Str []) ∧
  curveCardinalSegments points tension from to = Ok (Str []) ∧
  curveMonotoneSegments points from to = Ok (Str []).
Proof using short.
  destruct short_range_leb as (f & t & L & E & Hle).
  unfold curveBasisSegments, curveCardinalSegments, curveMonotoneSegments.
  rewrite E, Hle. auto.
Qed.

End ShortRange.

(** C2. On the empty input (and on every range of at most two points, by
    [short_range_paths] and [short_range_segments]) the continuous drivers
    return the empty path; the segmented drivers return the empty string
    [""], which is not the empty array [[]] their documentation promises
    and [curveHermiteSegments] returns. *)
Theorem short_range_segments_not_array :
  (curveBasis [] None 0 = Ok [] ∧
   curveCardinal [] 0 None 0 = Ok [] ∧
   curveMonotone [] None 0 = Ok []) ∧
  (curveBasisSegments [] None 0 = Ok (Str []) ∧
   curveCardinalSegments [] 0 None 0 = Ok (Str []) ∧
   curveMonotoneSegments [] None 0 = Ok (Str [])) ∧
  curveBasisSegments [] None 0 ≠ Ok (Arr []) ∧
  curveCardinalSegments [] 0 None 0 ≠ Ok (Arr []) ∧
  curveMonotoneSegments [] None 0 ≠ Ok (Arr []) ∧
  curveHermiteSegments [] [] None 0 = Ok [].
Proof.
  assert (H : (range_length [] None 0 <= 2)%Z) by (vm_compute; discriminate).
  destruct (short_range_paths [] None 0 H 0) as (P1 & P2 & P3).
  destruct (short_range_segments [] None 0 H 0) as (S1 & S2 & S3).
  rewrite S1, S2, S3.
  repeat split; try assumption; try discriminate.
Qed.

(** ** Tangent count of the Hermite evaluator *)

(** C4. When the number [T] of tangents is neither the number [L] of points
    in range nor [L - 2], both Hermite evaluators return their empty result:
    the empty path and the empty array.  No outcome is a fault. *)
Theorem hermite_mismatch_empty (points : list point) (tangents : list vec)
    (from : option Z) (to : Z) :
  Z.of_nat (length tangents) ≠ range_length points from to →
  Z.of_nat (length tangents) ≠ (range_length points from to - 2)%Z →
  curveHermite points tangents from to = Ok [] ∧
  curveHermiteSegments points tangents from to = Ok [].
Proof.
  unfold range_length, curveHermite, curveHermiteSegments.
  destruct (range points from to) as [[L f] t]. simpl.
  intros H1 H2.
  assert (E : (Z.of_nat (length tangents) <? 1)%Z
              || (negb (L =? Z.of_nat (length tangents))%Z
                  && negb (L =? Z.of_nat (length tangents) + 2)%Z) = true).
  { apply orb_true_iff. right. apply andb_true_iff.
    split; apply negb_true_iff, Z.eqb_neq; lia. }
  rewrite E. auto.
Qed.

Lemma hermite_mismatch_empty_witness :
  let points := [Point 0 0; Point 1 1; Point 2 0] in
  let tangents := [Vec 1 0; Vec 1 0] in
  curveHermite points tangents None 0 = Ok [] ∧
  curveHermiteSegments points tangents None 0 = Ok [].
Proof.
  apply (hermite_mismatch_empty [Point 0 0; Point 1 1; Point 2 0]
           [Vec 1 0; Vec 1 0] None 0); vm_compute; discriminate.
Defined.

(** ** Cardinal tangents *)

Lemma cardinal_post_snoc points tension f n ts pm pp :
  (0 <= n)%Z →
  cardinal_post points tension f n ts →
  points.[f + n] = Some pm →
  points.[f + n + 2] = Some pp →
  cardinal_post points tension f (n + 1) (ts ++ [cardinal_tangent tension pm pp]).
Proof.
  intros Hn [Hlen Hts] Hm Hp. split.
  - rewrite length_app. simpl. lia.
  - intros i qm qp Hi Hqm Hqp.
    destruct (decide (Z.of_nat i = n)) as [Heq|Hne].
    + rewrite lookup_app_r by lia.
      replace (i - length ts)%nat with 0%nat by lia. simpl.
      rewrite Heq in Hqm, Hqp. congruence.
    + rewrite lookup_app_l by lia. apply Hts; auto. lia.
Qed.

Lemma cardinalTangents_spec (points : list point) (tension : R)
    (from : option Z) (to : Z) :
  in_bounds points from to →
  (3 <= range_length points from to)%Z →
  wp (cardinalTangents points tension from to)
     (cardinal_post points tension (range_start points from to)
        (range_length points from to - 2)) total.
Proof.
  intros Hb HL.
  destruct (in_bounds_range _ _ _ Hb) as (L & f & t & E & HLe & Hf & Ht & EL & Ef).
  rewrite EL in *. rewrite Ef. unfold cardinalTangents. rewrite E.
  apply wp_bind.
  eapply wp_mono.
  - apply (wp_for_range
      (fun i '(ts, p0, p1, p2) =>
         p0 = points.[i - 3] ∧ p1 = points.[i - 2] ∧ p2 = points.[i - 1] ∧
         cardinal_post points tension f (i - f - 3) ts)).
    + lia.
    + split; [|split; [|split]]; try (f_equal; lia).
      split; [simpl; lia | intros i pm pp Hi; lia].
    + intros j [[[ts p0] p1] p2] Hj (-> & -> & -> & Hpost).
      apply wp_bind, wp_deref; [lia|]. intros q2 Hq2.
      apply wp_bind, wp_deref; [lia|]. intros q0 Hq0.
      apply wp_ok. split; [|split; [|split]]; try (f_equal; lia).
      replace (j + 1 - f - 3)%Z with (j - f - 3 + 1)%Z by lia.
      apply cardinal_post_snoc; auto; try lia.
      * rewrite <- Hq0. f_equal. lia.
      * rewrite <- Hq2. f_equal. lia.
  - intros [[[ts p0] p1] p2] (-> & -> & -> & Hpost).
    apply wp_bind, wp_deref; [lia|]. intros q2 Hq2.
    apply wp_bind, wp_deref; [lia|]. intros q0 Hq0.
    apply wp_ok.
    replace (L - 2)%Z with (t + 1 - f - 3 + 1)%Z by lia.
    apply cardinal_post_snoc; auto; try lia.
    + rewrite <- Hq0. f_equal. lia.
    + rewrite <- Hq2. f_equal. lia.
Qed.

(** C7. On a range of [L >= 3] points [cardinalTangents] returns exactly
    [L - 2] tangents, and the [i]-th one is [a * (p[i+1] - p[i-1])] for the
    [i]-th interior point of the range, with [a = (1 - tension) / 2]. *)
Theorem cardinalTangents_interior (points : list point) (tension : R)
    (from : option Z) (to : Z) :
  in_bounds points from to →
  (3 <= range_length points from to)%Z →
  ∃ ts : list vec,
    cardinalTangents points tension from to = Ok ts ∧
    Z.of_nat (length ts) = (range_length points from to - 2)%Z ∧
    ∀ (i : nat) (pm pp : point),
      (Z.of_nat i < range_length points from to - 2)%Z →
      points.[range_start points from to + Z.of_nat i] = Some pm →
      points.[range_start points from to + Z.of_nat i + 2] = Some pp →
      ts !! i = Some {| x := (1 - tension) / 2 * (left pp - left pm);
                        y := (1 - tension) / 2 * (top pp - top pm) |}%R.
Proof.
  intros Hb HL.
  destruct (wp_total_inv _ _ (cardinalTangents_spec points tension from to Hb HL))
    as (ts & Hts & Hlen & Hi).
  exists ts. repeat split; auto.
Qed.

Lemma cardinalTangents_interior_witness :
  ∃ ts : list vec,
    cardinalTangents [Point 0 0; Point 1 2; Point 3 1; Point 4 4] (1/2) None 0 = Ok ts ∧
    Z.of_nat (length ts) = 2%Z ∧
    ts !! 1%nat = Some {| x := (1 - 1/2) / 2 * (4 - 1); y := (1 - 1/2) / 2 * (4 - 2) |}%R.
Proof.
  destruct (cardinalTangents_interior
              [Point 0 0; Point 1 2; Point 3 1; Point 4 4] (1/2) None 0)
    as (ts & Hts & Hlen & Hi).
  - vm_compute. split; [discriminate | reflexivity].
  - vm_compute. discriminate.
  - exists ts. split; [exact Hts|]. split; [exact Hlen|].
    apply (Hi 1%nat (Point 1 2) (Point 4 4)); [vm_compute|..]; reflexivity.
Defined.

(** C8. With [tension = 1] the factor [a] is 0 and [cardinalTangents]
    returns [L - 2] copies of the zero vector. *)
Theorem cardinalTangents_tension_one (points : list point)
    (from : option Z) (to : Z) :
  in_bounds points from to →
  (3 <= range_length points from to)%Z →
  cardinalTangents points 1 from to =
    Ok (replicate (Z.to_nat (range_length points from to - 2)) {| x := 0; y := 0 |}).
Proof.
  intros Hb HL.
  destruct (wp_total_inv _ _ (cardinalTangents_spec points 1 from to Hb HL))
    as (ts & Hts & Hlen & Hi).
  rewrite Hts. f_equal. apply list_eq. intros i.
  destruct (in_bounds_range _ _ _ Hb) as (L & f & t & E & HLe & Hf & Ht & EL & Ef).
  rewrite EL in *. rewrite Ef in *.
  destruct (decide (Z.of_nat i < L - 2)%Z) as [Hlt|Hge].
  - destruct (at_index_defined points (f + Z.of_nat i)) as [pm Hpm]; [lia|].
    destruct (at_index_defined points (f + Z.of_nat i + 2)) as [pp Hpp]; [lia|].
    rewrite (Hi i pm pp Hlt Hpm Hpp).
    rewrite lookup_replicate_2 by lia.
    unfold cardinal_tangent. do 2 f_equal; lra.
  - rewrite lookup_ge_None_2 by lia.
    symmetry. apply lookup_ge_None_2. rewrite length_replicate. lia.
Qed.

Lemma cardinalTangents_tension_one_witness :
  cardinalTangents [Point 0 0; Point 1 2; Point 3 1; Point 4 4] 1 None 0 =
    Ok [ {| x := 0; y := 0 |}; {| x := 0; y := 0 |} ].
Proof.
  apply (cardinalTangents_tension_one
           [Point 0 0; Point 1 2; Point 3 1; Point 4 4] None 0).
  - vm_compute. split; [discriminate | reflexivity].
  - vm_compute. discriminate.
Defined.

(** ** Segments of the basis spline *)

(** C1, as the code has it.  On five points (default range)
    [curveBasisSegments] returns four entries: the first two curve segments
    merged into one entry, two single interior entries, and the last two
    segments merged into one entry.  Three entries are what four points
    give. *)
Theorem curveBasisSegments_five_points :
  (∀ (a b c d e : point) (to : Z),
     curveBasisSegments [a; b; c; d; e] None to =
       Ok (Arr [ ([pathBasis.move a a a b],
                  [pathBasis.curve a a a b; pathBasis.curve a a b c]);
                 ([pathBasis.move a b c d], [pathBasis.curve a b c d]);
                 ([pathBasis.move b c d e], [pathBasis.curve b c d e]);
                 ([pathBasis.move c d e e],
                  [pathBasis.curve c d e e; pathBasis.curve d e e e]) ])) ∧
  (∀ (a b c d : point) (to : Z),
     curveBasisSegments [a; b; c; d] None to =
       Ok (Arr [ ([pathBasis.move a a a b],
                  [pathBasis.curve a a a b; pathBasis.curve a a b c]);
                 ([pathBasis.move a b c d], [pathBasis.curve a b c d]);
                 ([pathBasis.move b c d d],
                  [pathBasis.curve b c d d; pathBasis.curve c d d d]) ])).
Proof. split; intros; reflexivity. Qed.

(** C1 as stated fails: these five points do not give three entries. *)
Lemma five_points_not_three_segments :
  ¬ ∃ e1 e2 e3 : segment,
      curveBasisSegments
        [Point 0 0; Point 1 1; Point 2 0; Point 3 1; Point 4 0] None 0
      = Ok (Arr [e1; e2; e3]).
Proof.
  intros (e1 & e2 & e3 & H). cbv [curveBasisSegments range] in H.
  discriminate H.
Qed.

(** ** The basis spline as a sliding window *)

Lemma windows4_length (l : list point) : length (windows4 l) = (length l - 3)%nat.
Proof.
  induction l as [|a t IH]; [reflexivity|].
  destruct t as [|b [|c [|d t']]]; try reflexivity.
  change (windows4 (a :: b :: c :: d :: t'))
    with ((a, b, c, d) :: windows4 (b :: c :: d :: t')).
  simpl length in *. rewrite IH. lia.
Qed.

Lemma windows4_lookup (l : list point) (i : nat) (a b c d : point) :
  l !! i = Some a → l !! (i + 1)%nat = Some b →
  l !! (i + 2)%nat = Some c → l !! (i + 3)%nat = Some d →
  windows4 l !! i = Some (a, b, c, d).
Proof.
  revert i. induction l as [|x t IH]; intros i Ha Hb Hc Hd; [discriminate|].
  destruct i as [|i].
  - destruct t as [|b' [|c' [|d' t']]]; try discriminate.
    simpl in *. congruence.
  - simpl in Ha, Hb, Hc, Hd.
    assert (Hw : windows4 (x :: t) !! S i = windows4 t !! i).
    { destruct t as [|b' [|c' [|d' t']]]; reflexivity. }
    rewrite Hw. apply IH; assumption.
Qed.

Lemma last_is_lookup (l : list point) (x d : point) :
  (x :: l) !! length l = Some (List.last (x :: l) d).
Proof.
  revert x. induction l as [|y l IH]; intros x; [reflexivity|].
  change ((y :: l) !! length l = Some (List.last (y :: l) d)). apply IH.
Qed.

(** The padded sequence, read by index. *)
Lemma pad_lookup (ps : list point) (first lst : point) :
  ps !! 0%nat = Some first →
  ps !! (length ps - 1)%nat = Some lst →
  length (pad ps) = (length ps + 4)%nat ∧
  pad ps !! 0%nat = Some first ∧ pad ps !! 1%nat = Some first ∧
  (∀ k, (k < length ps)%nat → pad ps !! (k + 2)%nat = ps !! k) ∧
  pad ps !! (length ps + 2)%nat = Some lst ∧
  pad ps !! (length ps + 3)%nat = Some lst.
Proof.
  destruct ps as [|x l]; [discriminate|]. intros Hf Hl.
  injection Hf as ->.
  assert (Hlast : List.last (first :: l) first = lst).
  { pose proof (last_is_lookup l first first) as H.
    simpl length in Hl. replace (S (length l) - 1)%nat with (length l) in Hl by lia.
    congruence. }
  unfold pad. rewrite Hlast.
  split; [simpl; rewrite length_app; simpl; lia|].
  split; [reflexivity|]. split; [reflexivity|].
  split.
  - intros k Hk. replace (k + 2)%nat with (S (S k)) by lia.
    change (((first :: l) ++ [lst; lst]) !! k = (first :: l) !! k).
    apply lookup_app_l. exact Hk.
  - split.
    + replace (length (first :: l) + 2)%nat with (S (S (length (first :: l) + 0))) by lia.
      change (((first :: l) ++ [lst; lst]) !! (length (first :: l) + 0)%nat = Some lst).
      rewrite lookup_app_r by lia.
      replace (length (first :: l) + 0 - length (first :: l))%nat with 0%nat by lia.
      reflexivity.
    + replace (length (first :: l) + 3)%nat with (S (S (length (first :: l) + 1))) by lia.
      change (((first :: l) ++ [lst; lst]) !! (length (first :: l) + 1)%nat = Some lst).
      rewrite lookup_app_r by lia.
      replace (length (first :: l) + 1 - length (first :: l))%nat with 1%nat by lia.
      reflexivity.
Qed.

(** The points of a range in bounds are the array slice. *)
Lemma range_points_lookup (points : list point) (from : option Z) (to : Z) :
  in_bounds points from to →
  (0 <= range_length points from to)%Z →
  Z.of_nat (length (range_points points from to)) = range_length points from to ∧
  ∀ k : nat, (Z.of_nat k < range_length points from to)%Z →
    range_points points from to !! k = points.[range_start points from to + Z.of_nat k].
Proof.
  intros Hb HL.
  destruct (in_bounds_range _ _ _ Hb) as (L & f & t & E & HLe & Hf & Ht & EL & Ef).
  unfold range_points. rewrite EL in *. rewrite Ef. split.
  - rewrite length_take, length_drop. lia.
  - intros k Hk. rewrite lookup_take_lt by lia. rewrite lookup_drop.
    rewrite at_index_lookup by lia. f_equal. lia.
Qed.

(** One conversion of the reference, at window [n] of the padded sequence. *)
Lemma reference_step (ps : list point) (n : nat) :
  (n + 3 < length (pad ps))%nat →
  ∃ c : cmd,
    pathBasis.convert (pad ps !! n) (pad ps !! (n + 1)%nat)
                      (pad ps !! (n + 2)%nat) (pad ps !! (n + 3)%nat) = Ok [c] ∧
    take (S n) (curveBasis_reference ps) = take n (curveBasis_reference ps) ++ [c].
Proof.
  intros Hn.
  destruct (lookup_lt_is_Some_2 (pad ps) n) as [w0 H0]; [lia|].
  destruct (lookup_lt_is_Some_2 (pad ps) (n + 1)) as [w1 H1]; [lia|].
  destruct (lookup_lt_is_Some_2 (pad ps) (n + 2)) as [w2 H2]; [lia|].
  destruct (lookup_lt_is_Some_2 (pad ps) (n + 3)) as [w3 H3]; [lia|].
  exists (pathBasis.curve w0 w1 w2 w3). rewrite H0, H1, H2, H3.
  split; [reflexivity|].
  apply take_S_r. unfold curveBasis_reference.
  rewrite list_lookup_fmap, (windows4_lookup _ _ _ _ _ _ H0 H1 H2 H3).
  reflexivity.
Qed.

(** C5. On a range of [L >= 3] points [curveBasis] is the reference
    definition: pad the points of the range with two more copies of the
    first and of the last point, slide a window of four points across, and
    convert each window.  It emits [L + 1] commands, all [CubicTo]; the
    first window is [(p0, p0, p0, p1)] and the last is
    [(p_{L-2}, p_{L-1}, p_{L-1}, p_{L-1})]. *)
Theorem curveBasis_sliding_window (points : list point) (from : option Z) (to : Z) :
  in_bounds points from to →
  (3 <= range_length points from to)%Z →
  let ps := range_points points from to in
  let L := range_length points from to in
  curveBasis points from to = Ok (curveBasis_reference ps) ∧
  Z.of_nat (length ps) = L ∧
  Z.of_nat (length (curveBasis_reference ps)) = (L + 1)%Z ∧
  Forall is_CubicTo (curveBasis_reference ps) ∧
  (∃ p0 p1 : point,
     ps !! 0%nat = Some p0 ∧ ps !! 1%nat = Some p1 ∧
     head (windows4 (pad ps)) = Some (p0, p0, p0, p1)) ∧
  (∃ pa pb : point,
     ps !! Z.to_nat (L - 2) = Some pa ∧ ps !! Z.to_nat (L - 1) = Some pb ∧
     last (windows4 (pad ps)) = Some (pa, pb, pb, pb)).
Proof.
  intros Hb HL ps L.
  destruct (range_points_lookup points from to Hb) as [Hlen Hps]; [lia|].
  fold ps in Hlen, Hps. fold L in Hlen, Hps, HL.
  destruct (in_bounds_range _ _ _ Hb) as (L' & f & t & E & HLe & Hf & Ht & EL & Ef).
  fold L in EL. subst L'. rewrite Ef in Hps.
  destruct (lookup_lt_is_Some_2 ps 0) as [a Ha]; [lia|].
  destruct (lookup_lt_is_Some_2 ps 1) as [b Hb1]; [lia|].
  destruct (lookup_lt_is_Some_2 ps (length ps - 2)) as [y Hy]; [lia|].
  destruct (lookup_lt_is_Some_2 ps (length ps - 1)) as [z Hz]; [lia|].
  destruct (pad_lookup ps a z Ha Hz) as (Hplen & Hp0 & Hp1 & Hpk & Hpl2 & Hpl3).
  assert (Hwlen : length (curveBasis_reference ps) = (length ps + 1)%nat).
  { unfold curveBasis_reference. rewrite length_map, windows4_length. lia. }
  assert (Hp2 : pad ps !! 2%nat = Some a).
  { rewrite <- Ha. apply (Hpk 0%nat). lia. }
  assert (Hp3 : pad ps !! 3%nat = Some b).
  { rewrite <- Hb1. apply (Hpk 1%nat). lia. }
  assert (Hpy : pad ps !! length ps = Some y).
  { replace (length ps) with (length ps - 2 + 2)%nat at 1 by lia.
    rewrite Hpk by lia. exact Hy. }
  assert (Hpz : pad ps !! (length ps + 1)%nat = Some z).
  { replace (length ps + 1)%nat with (length ps - 1 + 2)%nat by lia.
    rewrite Hpk by lia. exact Hz. }
  assert (Hidx : ∀ n : nat, (n + 2 < length ps)%nat →
                 points.[f + 2 + Z.of_nat n] = pad ps !! (n + 4)%nat).
  { intros n Hn. replace (n + 4)%nat with (n + 2 + 2)%nat by lia.
    rewrite Hpk by lia. rewrite Hps by lia. f_equal. lia. }
  split; [|split; [exact Hlen|split; [lia|split; [|split]]]].
  - (* the code against the reference *)
    unfold curveBasis. rewrite E.
    replace (t - f + 1 <=? 2)%Z with false by (symmetry; apply Z.leb_gt; lia).
    replace (points.[f]) with (pad ps !! 0%nat)
      by (rewrite Hp0, <- Ha, (Hps 0%nat) by lia; f_equal; lia).
    replace (points.[f + 1]) with (pad ps !! 3%nat)
      by (rewrite Hp3, <- Hb1, (Hps 1%nat) by lia; f_equal; lia).
    set (R := curveBasis_reference ps).
    apply wp_total_eq. cbv zeta.
    destruct (reference_step ps 0) as (c0 & Hc0 & Ht0); [lia|].
    simpl in Hc0. rewrite Hp1, Hp2, <- Hp0 in Hc0. rewrite Hc0. simpl.
    apply wp_bind. eapply wp_mono.
    + apply (wp_for_range
        (fun i '(p0, p1, p2, p3, path) =>
           ∃ n : nat, i = (f + 2 + Z.of_nat n)%Z ∧
             p1 = pad ps !! (n + 1)%nat ∧ p2 = pad ps !! (n + 2)%nat ∧
             p3 = pad ps !! (n + 3)%nat ∧ path = take (S n) R)).
      * lia.
      * exists 0%nat. simpl. rewrite Hp0, Hp1, Hp2.
        repeat split; [lia | symmetry; exact Ht0].
      * intros j [[[[p0 p1] p2] p3] path] Hj (n & -> & -> & -> & -> & ->).
        rewrite Hidx by lia.
        destruct (reference_step ps (n + 1)) as (c & Hc & Htk); [lia|].
        replace (n + 1 + 1)%nat with (n + 2)%nat in Hc by lia.
        replace (n + 1 + 2)%nat with (n + 3)%nat in Hc by lia.
        replace (n + 1 + 3)%nat with (n + 4)%nat in Hc by lia.
        rewrite Hc. simpl. exists (S n).
        replace (S n + 1)%nat with (n + 2)%nat by lia.
        replace (S n + 2)%nat with (n + 3)%nat by lia.
        replace (S n + 3)%nat with (n + 4)%nat by lia.
        replace (S n) with (n + 1)%nat by lia.
        repeat split; [lia|]. symmetry. exact Htk.
    + intros [[[[p0 p1] p2] p3] path] (n & Hn & -> & -> & -> & ->).
      assert (n = (length ps - 2)%nat) as -> by lia.
      replace (length ps - 2 + 1)%nat with (length ps - 1)%nat by lia.
      replace (length ps - 2 + 2)%nat with (length ps) by lia.
      replace (length ps - 2 + 3)%nat with (length ps + 1)%nat by lia.
      destruct (reference_step ps (length ps - 1)) as (c1 & Hc1 & Ht1); [lia|].
      replace (length ps - 1 + 1)%nat with (length ps) in Hc1 by lia.
      replace (length ps - 1 + 2)%nat with (length ps + 1)%nat in Hc1 by lia.
      replace (length ps - 1 + 3)%nat with (length ps + 2)%nat in Hc1 by lia.
      destruct (reference_step ps (length ps)) as (c2 & Hc2 & Ht2); [lia|].
      rewrite Hpl2, <- Hpz in Hc1. rewrite Hc1. simpl.
      rewrite Hpl2, Hpl3, <- Hpz in Hc2. rewrite Hc2. simpl.
      replace (S (length ps - 2)) with (length ps - 1)%nat by lia.
      replace (S (length ps - 1)) with (length ps) in Ht1 by lia.
      unfold R. rewrite <- Ht1, <- Ht2. apply take_ge. lia.
  - (* every command is a CubicTo *)
    unfold curveBasis_reference. apply Forall_fmap, Forall_true.
    intros [[[w0 w1] w2] w3]. exact I.
  - (* the first window *)
    exists a, b. split; [exact Ha|]. split; [exact Hb1|].
    rewrite head_lookup. apply windows4_lookup; assumption.
  - (* the last window *)
    exists y, z.
    replace (Z.to_nat (L - 2)) with (length ps - 2)%nat by lia.
    replace (Z.to_nat (L - 1)) with (length ps - 1)%nat by lia.
    split; [exact Hy|]. split; [exact Hz|].
    rewrite last_lookup, windows4_length, Hplen.
    replace (Init.Nat.pred (length ps + 4 - 3)) with (length ps) by lia.
    apply windows4_lookup; assumption.
Qed.

Lemma curveBasis_sliding_window_witness :
  let points := [Point 0 0; Point 1 2; Point 3 1; Point 4 4] in
  curveBasis points None 0 = Ok (curveBasis_reference points) ∧
  length (curveBasis_reference points) = 5%nat ∧
  head (windows4 (pad points)) = Some (Point 0 0, Point 0 0, Point 0 0, Point 1 2) ∧
  last (windows4 (pad points)) = Some (Point 3 1, Point 4 4, Point 4 4, Point 4 4).
Proof.
  destruct (curveBasis_sliding_window
              [Point 0 0; Point 1 2; Point 3 1; Point 4 4] None 0)
    as (H & _).
  - vm_compute. split; [discriminate | reflexivity].
  - vm_compute. discriminate.
  - split; [exact H|]. repeat split; reflexivity.
Defined.

(** ** Commands of the Hermite path *)

(** The loop of [curveHermite] appends one [SmoothCubicTo] for each of the
    tangents [2 .. T - 1]. *)
Lemma hermite_smooth_loop (points : list point) (tangents : list vec)
    (T pi0 : Z) (path0 : path) (p : option point) (t : option vec) :
  T = Z.of_nat (length tangents) →
  (2 <= T)%Z → (0 <= pi0)%Z → (pi0 + (T - 2) <= Z.of_nat (length points))%Z →
  is_Some p → is_Some t →
  wp (for_range 2 (T - 1) (fun i '(path, p, t, pi) =>
        let p := points.[pi] in
        let t := tangents.[i] in
        q ← deref p; u ← derefv t;
        Ok (path ++ [SmoothCubicTo (left q - x u) (top q - y u) (left q) (top q)],
            p, t, (pi + 1)%Z)) (path0, p, t, pi0))
     (fun '(path, p, t, pi) =>
        pi = (pi0 + (T - 2))%Z ∧ is_Some p ∧ is_Some t ∧
        ∃ rest : list cmd, path = path0 ++ rest ∧ Forall is_SmoothCubicTo rest ∧
                       Z.of_nat (length rest) = (T - 2)%Z) total.
Proof.
  intros HT H2 Hpi0 Hpi1 Hp Ht.
  eapply wp_mono.
  - apply (wp_for_range
      (fun i '(path, p, t, pi) =>
         pi = (pi0 + (i - 2))%Z ∧ is_Some p ∧ is_Some t ∧
         ∃ rest : list cmd, path = path0 ++ rest ∧ Forall is_SmoothCubicTo rest ∧
                        Z.of_nat (length rest) = (i - 2)%Z)).
    + lia.
    + split; [lia|]. split; [exact Hp|]. split; [exact Ht|].
      exists []. rewrite app_nil_r. repeat split. apply List.Forall_nil.
    + intros j [[[path p'] t'] pi] Hj (-> & _ & _ & rest & -> & Hrest & Hlen).
      cbv zeta. apply wp_bind, wp_deref; [lia|]. intros q Hq.
      apply wp_bind, wp_derefv; [lia|]. intros u Hu.
      apply wp_ok. split; [lia|]. rewrite Hq, Hu.
      split; [eauto|]. split; [eauto|].
      eexists (rest ++ [_]). rewrite app_assoc. split; [reflexivity|].
      split; [apply Forall_app; split; [exact Hrest | repeat constructor]|].
      rewrite length_app. simpl. lia.
  - intros [[[path p'] t'] pi] (Hpi & Hp' & Ht' & rest & Hpath & Hrest & Hlen).
    replace (T - 1 + 1 - 2)%Z with (T - 2)%Z in * by lia.
    repeat split; eauto.
Qed.

Section HermiteCommands.
Variables (points : list point) (tangents : list vec) (from : option Z) (to : Z).
Hypothesis bounds : in_bounds points from to.
Hypothesis three : (3 <= range_length points from to)%Z.

(** One tangent per point: a [CubicTo], then [SmoothCubicTo]s. *)
Lemma curveHermite_full :
  Z.of_nat (length tangents) = range_length points from to →
  wp (curveHermite points tangents from to)
     (fun pth => ∃ (c s : cmd) (rest : list cmd),
        pth = c :: s :: rest ∧ is_CubicTo c ∧ Forall is_SmoothCubicTo (s :: rest) ∧
        Z.of_nat (length (s :: rest)) = (range_length points from to - 2)%Z) total.
Proof using bounds three.
  intros HT.
  destruct (in_bounds_range _ _ _ bounds) as (L & f & t & E & HLe & Hf & Ht & EL & Ef).
  rewrite EL in *. clear EL Ef.
  unfold curveHermite. rewrite E.
  remember (Z.of_nat (length tangents)) as T eqn:HTdef.
  replace (T <? 1)%Z with false by (symmetry; apply Z.ltb_ge; lia).
  replace (1 <? T)%Z with true by (symmetry; apply Z.ltb_lt; lia).
  replace (L =? T)%Z with true by (symmetry; apply Z.eqb_eq; lia).
  destruct (at_index_defined tangents 0) as [u0 Hu0]; [lia|].
  destruct (at_index_defined tangents 1) as [u1 Hu1]; [lia|].
  destruct (at_index_defined points f) as [a Ha]; [lia|].
  destruct (at_index_defined points (f + 1)) as [b Hb1]; [lia|].
  rewrite Ha, Hu0, Hu1. simpl. rewrite Hb1. simpl.
  apply wp_bind. eapply wp_mono.
  - apply hermite_smooth_loop; eauto; lia.
  - intros [[[pth p'] t'] pi] (Hpi & _ & _ & rest & -> & Hrest & Hlen). simpl.
    destruct rest as [|s rest]; [simpl in Hlen; lia|].
    eexists _, s, rest. split; [reflexivity|].
    split; [exact I|]. split; [exact Hrest|]. simpl length in *. lia.
Qed.

(** Tangents for the interior points only: [QuadTo] at both ends. *)
Lemma curveHermite_quad :
  Z.of_nat (length tangents) = (range_length points from to - 2)%Z →
  wp (curveHermite points tangents from to)
     (fun pth => ∃ (q1 q2 : cmd) (mid : list cmd),
        pth = q1 :: mid ++ [q2] ∧ is_QuadTo q1 ∧ is_QuadTo q2 ∧
        Forall (fun c => is_CubicTo c ∨ is_SmoothCubicTo c) mid ∧
        Z.of_nat (length mid) = (range_length points from to - 3)%Z) total.
Proof using bounds three.
  intros HT.
  destruct (in_bounds_range _ _ _ bounds) as (L & f & t & E & HLe & Hf & Ht & EL & Ef).
  rewrite EL in *. clear EL Ef.
  unfold curveHermite. rewrite E.
  remember (Z.of_nat (length tangents)) as T eqn:HTdef.
  replace (T <? 1)%Z with false by (symmetry; apply Z.ltb_ge; lia).
  replace (L =? T)%Z with false by (symmetry; apply Z.eqb_neq; lia).
  replace (L =? T + 2)%Z with true by (symmetry; apply Z.eqb_eq; lia).
  destruct (at_index_defined tangents 0) as [u0 Hu0]; [lia|].
  destruct (at_index_defined points (f + 1)) as [b Hb1]; [lia|].
  destruct (at_index_defined points (f + 2)) as [c Hc]; [lia|].
  rewrite Hb1, Hu0. simpl.
  destruct (Z.ltb_spec 1 T) as [H1T|H1T].
  - (* at least two tangents: cubic commands in between *)
    destruct (at_index_defined tangents 1) as [u1 Hu1]; [lia|].
    rewrite Hu1, Hc. simpl.
    apply wp_bind. eapply wp_mono.
    + apply hermite_smooth_loop; eauto; lia.
    + intros [[[pth p'] t'] pi] (Hpi & [q Hq] & [u Hu] & rest & -> & Hrest & Hlen).
      simpl. subst p' t' pi.
      destruct (at_index_defined points (f + 2 + 1 + (T - 2))) as [l Hl]; [lia|].
      rewrite Hl. simpl.
      eexists _, _, (_ :: rest). split; [reflexivity|].
      split; [exact I|]. split; [exact I|].
      split.
      * apply List.Forall_cons; [left; exact I|].
        eapply Forall_impl; [exact Hrest|]. intros x0 Hx0. right. exact Hx0.
      * simpl length. lia.
  - (* a single tangent: the two boundary commands only *)
    simpl. rewrite Hc. simpl.
    eexists _, _, []. split; [reflexivity|].
    split; [exact I|]. split; [exact I|].
    split; [apply List.Forall_nil|]. simpl. lia.
Qed.

End HermiteCommands.

(** C6. On a range of [L >= 3] points: with [T = L] tangents the path of
    [curveHermite] is one [CubicTo] followed by [L - 2] [SmoothCubicTo], so
    its second command is a [SmoothCubicTo]; with [T = L - 2] tangents its
    first and last commands are [QuadTo] and the [L - 3] commands between
    them are cubic ([CubicTo] or [SmoothCubicTo]). *)
Theorem curveHermite_commands (points : list point) (tangents : list vec)
    (from : option Z) (to : Z) :
  in_bounds points from to →
  (3 <= range_length points from to)%Z →
  Z.of_nat (length tangents) = range_length points from to ∨
  Z.of_nat (length tangents) = (range_length points from to - 2)%Z →
  (Z.of_nat (length tangents) = range_length points from to ∧
   ∃ (c s : cmd) (rest : list cmd),
     curveHermite points tangents from to = Ok (c :: s :: rest) ∧
     is_CubicTo c ∧ Forall is_SmoothCubicTo (s :: rest) ∧
     Z.of_nat (length (s :: rest)) = (range_length points from to - 2)%Z)
  ∨
  (Z.of_nat (length tangents) = (range_length points from to - 2)%Z ∧
   ∃ (q1 q2 : cmd) (mid : list cmd),
     curveHermite points tangents from to = Ok (q1 :: mid ++ [q2]) ∧
     is_QuadTo q1 ∧ is_QuadTo q2 ∧
     Forall (fun c => is_CubicTo c ∨ is_SmoothCubicTo c) mid ∧
     Z.of_nat (length mid) = (range_length points from to - 3)%Z).
Proof.
  intros Hb HL [HT|HT]; [left|right]; (split; [exact HT|]).
  - destruct (wp_total_inv _ _ (curveHermite_full points tangents from to Hb HL HT))
      as (pth & Hp & c & s & rest & -> & H).
    exists c, s, rest. split; [exact Hp | exact H].
  - destruct (wp_total_inv _ _ (curveHermite_quad points tangents from to Hb HL HT))
      as (pth & Hp & q1 & q2 & mid & -> & H).
    exists q1, q2, mid. split; [exact Hp | exact H].
Qed.

Lemma curveHermite_commands_witness :
  let points := [Point 0 0; Point 1 2; Point 3 1; Point 4 4] in
  (∃ (c s : cmd) (rest : list cmd),
     curveHermite points [Vec 1 1; Vec 1 0; Vec 1 0; Vec 1 1] None 0
       = Ok (c :: s :: rest) ∧
     is_CubicTo c ∧ Forall is_SmoothCubicTo (s :: rest)) ∧
  (∃ (q1 q2 : cmd) (mid : list cmd),
     curveHermite points [Vec 1 0; Vec 1 0] None 0 = Ok (q1 :: mid ++ [q2]) ∧
     is_QuadTo q1 ∧ is_QuadTo q2 ∧
     Forall (fun c => is_CubicTo c ∨ is_SmoothCubicTo c) mid).
Proof.
  split.
  - destruct (curveHermite_commands
                [Point 0 0; Point 1 2; Point 3 1; Point 4 4]
                [Vec 1 1; Vec 1 0; Vec 1 0; Vec 1 1] None 0)
      as [(_ & c & s & rest & H1 & H2 & H3 & _) | (HT & _)].
    + vm_compute. split; [discriminate | reflexivity].
    + vm_compute. discriminate.
    + left. reflexivity.
    + exists c, s, rest. auto.
    + vm_compute in HT. discriminate HT.
  - destruct (curveHermite_commands
                [Point 0 0; Point 1 2; Point 3 1; Point 4 4]
                [Vec 1 0; Vec 1 0] None 0)
      as [(HT & _) | (_ & q1 & q2 & mid & H1 & H2 & H3 & H4 & _)].
    + vm_compute. split; [discriminate | reflexivity].
    + vm_compute. discriminate.
    + right. reflexivity.
    + vm_compute in HT. discriminate HT.
    + exists q1, q2, mid. auto.
Defined.

(** ** Monotone tangents *)

Lemma is_zero_true (o : option R) : is_zero o = true ↔ o = Some 0%R.
Proof.
  unfold is_zero. destruct o as [r|]; [|split; discriminate].
  destruct (Req_dec_T r 0) as [->|Hr]; split; auto; try discriminate.
  intros [= ->]. contradiction.
Qed.

Lemma abs_lt_zero (c : R) : (0 < c)%R → abs_lt (Some 0%R) c = true.
Proof.
  intros Hc. unfold abs_lt. rewrite Rabs_R0.
  destruct (Rlt_dec 0 c); [reflexivity | contradiction].
Qed.

(** The secant guard excludes a zero denominator. *)
Lemma secant_returns (p q : point) : ∃ v : R, monotone.secant p q = Ok v.
Proof.
  unfold monotone.secant.
  destruct (Rle_dec (Rabs (left q - left p)) 1e-12) as [H|H]; [eauto|].
  unfold rdiv. destruct (Req_dec_T (left q - left p) 0) as [H0|H0]; [|eauto].
  exfalso. apply H. rewrite H0, Rabs_R0. lra.
Qed.

Lemma secant_nonneg (p q : point) (v : R) :
  (left p < left q)%R → (top p <= top q)%R →
  monotone.secant p q = Ok v → (0 <= v)%R.
Proof.
  intros Hx Hy. unfold monotone.secant.
  destruct (Rle_dec (Rabs (left q - left p)) 1e-12) as [H|H].
  - intros [= <-]. lra.
  - unfold rdiv. destruct (Req_dec_T (left q - left p) 0) as [H0|H0]; [discriminate|].
    intros [= <-]. apply Rle_mult_inv_pos; lra.
Qed.

(** The clamp factor [3 / sqrt s] for [s > 9]. *)
Lemma clamp_factor (s : R) :
  (9 < s)%R → sqrt s ≠ 0%R ∧ (0 < 3 / sqrt s <= 1)%R.
Proof.
  intros Hs.
  assert (H3 : (3 < sqrt s)%R).
  { replace 3%R with (sqrt 9).
    - apply sqrt_lt_1; lra.
    - replace 9%R with (3 * 3)%R by lra. apply sqrt_square. lra. }
  split; [lra|]. split.
  - apply Rdiv_lt_0_compat; lra.
  - apply (Rmult_le_reg_r (sqrt s)); [lra|].
    unfold Rdiv. rewrite Rmult_assoc, Rinv_l by lra. lra.
Qed.

Section MonotoneSteps.
Variables (points : list point) (f L : Z).
Variable E : fault → Prop.

(** Either reads outside the array are allowed to throw, or there are none. *)
Hypothesis reads : E TypeError ∨ valid points f L.

Lemma read_ok (k : Z) : (0 <= k < L)%Z → E TypeError ∨ is_Some (points.[f + k]).
Proof using reads.
  intros Hk. destruct reads as [H|[H0 H1]]; [left; exact H | right].
  destruct (at_index_defined points (f + k)) as [p Hp]; [lia | eauto].
Qed.

Lemma increasing_adjacent (j : Z) (p q : point) :
  increasing points → points.[j] = Some p → points.[j + 1] = Some q →
  (left p < left q)%R ∧ (top p <= top q)%R.
Proof using Type.
  intros Hinc Hp Hq.
  pose proof (at_index_bound _ _ _ Hp) as Hj.
  rewrite at_index_lookup in Hp, Hq by lia.
  replace (Z.to_nat (j + 1)) with (S (Z.to_nat j)) in Hq by lia.
  exact (Hinc _ _ _ Hp Hq).
Qed.

Lemma secants_spec : wp (monotone.secants points f L) (secants_post points f L) E.
Proof using reads.
  unfold monotone.secants.
  destruct (Z_lt_le_dec (L - 2) (-1)) as [Hlt|Hge].
  { rewrite for_range_empty by lia. intros k Hk. lia. }
  eapply wp_mono.
  - apply (wp_for_range
      (fun i d => ∀ k : Z, (0 <= k < i)%Z →
         ∃ (p q : point) (v : R),
           points.[f + k] = Some p ∧ points.[f + k + 1] = Some q ∧
           monotone.secant p q = Ok v ∧ d !! k = Some v)).
    + lia.
    + intros k Hk. lia.
    + intros j d Hj Hd. cbv zeta.
      apply wp_bind, wp_deref_or.
      { replace (f + j + 1)%Z with (f + (j + 1))%Z by lia. apply read_ok. lia. }
      intros q Hq.
      apply wp_bind, wp_deref_or; [apply read_ok; lia|]. intros p Hp.
      destruct (secant_returns p q) as [v Hv]. rewrite Hv. simpl.
      intros k Hk. destruct (decide (k = j)) as [->|Hne].
      * exists p, q, v. rewrite lookup_insert_eq. auto.
      * destruct (Hd k) as (p' & q' & v' & H1 & H2 & H3 & H4); [lia|].
        exists p', q', v'. rewrite lookup_insert_ne by congruence. auto.
  - intros d Hd k Hk. apply Hd. lia.
Qed.

Lemma secants_cells (d : gmap Z R) :
  secants_post points f L d → cells points (fun v => 0 <= v)%R (L - 1) d.
Proof using Type.
  intros Hd k Hk. destruct (Hd k Hk) as (p & q & v & Hp & Hq & Hv & Hdk).
  exists v. split; [exact Hdk|]. intros Hinc.
  destruct (increasing_adjacent _ _ _ Hinc Hp Hq) as [Hx Hy].
  exact (secant_nonneg _ _ _ Hx Hy Hv).
Qed.

Lemma cells_insert (P : R → Prop) (n : Z) (a : gmap Z R) (v : R) :
  cells points P n a → (increasing points → P v) → cells points P (n + 1) (<[n := v]> a).
Proof using Type.
  intros Ha Hv k Hk. destruct (decide (k = n)) as [->|Hne].
  - exists v. rewrite lookup_insert_eq. auto.
  - rewrite lookup_insert_ne by congruence. apply Ha. lia.
Qed.

Lemma cells_insert_at (P : R → Prop) (n n' : Z) (a : gmap Z R) (v : R) :
  n' = (n + 1)%Z → cells points P n a → (increasing points → P v) → cells points P n' (<[n := v]> a).
Proof using Type. intros ->. apply cells_insert. Qed.

(** The initial slopes are nonnegative and the extents positive when the
    points are increasing. *)
Lemma init_spec (d : gmap Z R) :
  (2 <= L)%Z → secants_post points f L d →
  wp (monotone.init points f L d)
     (fun '(m, dx) => cells points (fun v => 0 <= v)%R L m ∧ cells points (fun w => 0 < w)%R L dx) E.
Proof using reads.
  intros HL Hd. pose proof (secants_cells d Hd) as Hc.
  unfold monotone.init.
  destruct (Hc 0%Z) as (v0 & Hv0 & Hv0pos); [lia|]. rewrite Hv0. simpl set_cell.
  apply wp_bind, wp_deref_or; [apply read_ok; lia|]. intros q1 Hq1.
  apply wp_bind, wp_deref_or.
  { replace (points.[f]) with (points.[f + 0]) by (f_equal; lia). apply read_ok. lia. }
  intros q0 Hq0. cbv zeta.
  apply wp_bind. eapply wp_mono.
  - apply (wp_for_range
      (fun i '(m, dx) => cells points (fun v => 0 <= v)%R i m ∧ cells points (fun w => 0 < w)%R i dx)).
    + lia.
    + split.
      * apply (cells_insert _ 0 ∅); [intros k Hk; lia | exact Hv0pos].
      * apply (cells_insert _ 0 ∅); [intros k Hk; lia|]. intros Hinc.
        destruct (increasing_adjacent _ _ _ Hinc Hq0 Hq1). lra.
    + intros j [m dx] Hj [Hm Hdx]. cbv zeta.
      destruct (Hc (j - 1)%Z) as (a & Ha & Hapos); [lia|].
      destruct (Hc j) as (b & Hb & Hbpos); [lia|].
      rewrite Ha, Hb. simpl.
      apply wp_bind, wp_deref_or.
      { replace (f + j + 1)%Z with (f + (j + 1))%Z by lia. apply read_ok. lia. }
      intros pj1 Hpj1.
      apply wp_bind, wp_deref_or.
      { replace (f + j - 1)%Z with (f + (j - 1))%Z by lia. apply read_ok. lia. }
      intros pj0 Hpj0. apply wp_ok. split.
      * apply cells_insert; [exact Hm|]. intros Hinc.
        specialize (Hapos Hinc). specialize (Hbpos Hinc). lra.
      * apply cells_insert; [exact Hdx|]. intros Hinc.
        destruct (Hd j) as (p & q & v & Hp & Hq & _); [lia|].
        replace (f + j - 1 + 1)%Z with (f + j)%Z in * by lia.
        assert (Hpq : points.[f + j - 1 + 1] = Some p)
          by (rewrite <- Hp; f_equal; lia).
        destruct (increasing_adjacent _ _ _ Hinc Hpj0 Hpq).
        destruct (increasing_adjacent _ _ _ Hinc Hp Hpj1). lra.
  - intros [m dx] [Hm Hdx].
    replace (L - 2 + 1)%Z with (L - 1)%Z in * by lia.
    replace (Z.max 1 (L - 1)) with (L - 1)%Z by lia.
    destruct (Hc (L - 1 - 1)%Z) as (v & Hv & Hvpos); [lia|]. rewrite Hv. simpl set_cell.
    apply wp_bind, wp_deref_or; [apply read_ok; lia|]. intros pj Hpj.
    apply wp_bind, wp_deref_or.
    { replace (f + (L - 1) - 1)%Z with (f + (L - 2))%Z by lia. apply read_ok. lia. }
    intros pj0 Hpj0. apply wp_ok.
    split.
    + apply (cells_insert_at _ (L - 1)); [lia | exact Hm | exact Hvpos].
    + apply (cells_insert_at _ (L - 1)); [lia | exact Hdx |]. intros Hinc.
      assert (Hpq : points.[f + (L - 1) - 1 + 1] = Some pj)
        by (rewrite <- Hpj; f_equal; lia).
      destruct (increasing_adjacent _ _ _ Hinc Hpj0 Hpq). lra.
Qed.

End MonotoneSteps.

(** Step 3 never fails; it only writes zeros, and leaves every flat secant
    with flat tangents. *)
Lemma flatten_spec E (L : Z) (d m : gmap Z R) :
  wp (monotone.flatten L d m)
     (fun m' => flat L d m' ∧ ∀ i : Z, m' !! i = m !! i ∨ m' !! i = Some 0%R) E.
Proof.
  unfold monotone.flatten.
  destruct (Z_lt_le_dec (L - 2) (-1)) as [Hlt|Hge].
  { rewrite for_range_empty by lia. split; [intros k Hk; lia | auto]. }
  eapply wp_mono.
  - apply (wp_for_range
      (fun i m' =>
         (∀ k : Z, (0 <= k < i)%Z → d !! k = Some 0%R →
            m' !! k = Some 0%R ∧ m' !! (k + 1)%Z = Some 0%R) ∧
         ∀ i : Z, m' !! i = m !! i ∨ m' !! i = Some 0%R)).
    + lia.
    + split; [intros k Hk; lia | auto].
    + intros j m' Hj [Hflat Hsame].
      destruct (is_zero (d !! j)) eqn:Hz; apply wp_ok.
      * split.
        -- intros k Hk Hdk.
           assert (Hcell : ∀ i, (i = j ∨ i = j + 1 ∨ m' !! i = Some 0%R)%Z →
                     <[(j + 1)%Z := 0%R]> (<[j := 0%R]> m') !! i = Some 0%R).
           { intros i Hi. destruct (decide (i = j + 1)%Z) as [->|H1].
             - apply lookup_insert_eq.
             - rewrite lookup_insert_ne by congruence.
               destruct (decide (i = j)) as [->|H2].
               + apply lookup_insert_eq.
               + rewrite lookup_insert_ne by congruence.
                 destruct Hi as [Hi|[Hi|Hi]]; [contradiction | contradiction | exact Hi]. }
           destruct (decide (k = j)) as [->|Hne].
           ++ split; apply Hcell; auto.
           ++ destruct (Hflat k) as [H1 H2]; [lia | exact Hdk |].
              split; apply Hcell; auto.
        -- intros i. destruct (decide (i = j + 1)%Z) as [->|H1].
           ++ right. apply lookup_insert_eq.
           ++ rewrite lookup_insert_ne by congruence.
              destruct (decide (i = j)) as [->|H2].
              ** right. apply lookup_insert_eq.
              ** rewrite lookup_insert_ne by congruence. apply Hsame.
      * split; [|exact Hsame].
        intros k Hk Hdk. destruct (decide (k = j)) as [->|Hne].
        -- apply is_zero_true in Hdk. congruence.
        -- apply Hflat; [lia | exact Hdk].
  - intros m' [Hflat Hsame]. split; [|exact Hsame].
    intros k Hk. apply Hflat. lia.
Qed.

Lemma scaled_refl (m : gmap Z R) : scaled m m.
Proof.
  intros i. destruct (m !! i) as [v|] eqn:Hv; [|reflexivity].
  exists 1%R. split; [lra | f_equal; lra].
Qed.

Lemma scaled_is_Some (m m' : gmap Z R) (i : Z) :
  scaled m m' → is_Some (m !! i) → is_Some (m' !! i).
Proof.
  intros Hs [v Hv]. specialize (Hs i). rewrite Hv in Hs.
  destruct Hs as (c & _ & Hc). eauto.
Qed.

Lemma scaled_zero (m m' : gmap Z R) (i : Z) :
  scaled m m' → m !! i = Some 0%R → m' !! i = Some 0%R.
Proof.
  intros Hs Hv. specialize (Hs i). rewrite Hv in Hs.
  destruct Hs as (c & _ & Hc). rewrite Hc. f_equal. lra.
Qed.

(** One clamped cell: the new value [tk * (mk / dk) * dk] is the old value
    scaled by [tk]. *)
Lemma scaled_cell (m m' : gmap Z R) (i : Z) (mk dk tk : R) :
  scaled m m' → m' !! i = Some mk → dk ≠ 0%R → (0 < tk <= 1)%R →
  match m !! i with
  | Some v => ∃ c : R, (0 < c <= 1)%R ∧ Some (tk * (mk / dk) * dk)%R = Some (c * v)%R
  | None => False
  end.
Proof.
  intros Hs Hmk Hdk Htk. specialize (Hs i).
  destruct (m !! i) as [v|]; [|congruence].
  destruct Hs as (c & Hc & Hm'). exists (tk * c)%R. split; [nra|].
  f_equal. assert (mk = (c * v)%R) as -> by congruence. field. exact Hdk.
Qed.

(** Steps 4 and 5 scale slopes by factors in (0, 1].  A division by zero
    needs a flat secant whose tangent was not flattened; arithmetic on
    [undefined] needs an unset cell. *)
Lemma clamp_spec E (L : Z) (d m : gmap Z R) :
  E DivByZero ∨ (∀ k : Z, (0 <= k < L - 1)%Z → d !! k = Some 0%R → m !! k = Some 0%R) →
  E NaNOperand ∨ ((∀ k : Z, (0 <= k < L - 1)%Z → is_Some (d !! k)) ∧
                  (∀ k : Z, (0 <= k < L)%Z → is_Some (m !! k))) →
  wp (monotone.clamp L d m) (scaled m) E.
Proof.
  intros Hdiv Hnan. unfold monotone.clamp.
  destruct (Z_lt_le_dec (L - 2) (-1)) as [Hlt|Hge].
  { rewrite for_range_empty by lia. apply scaled_refl. }
  eapply wp_mono.
  - apply (wp_for_range (fun _ m' => scaled m m')).
    + lia.
    + apply scaled_refl.
    + intros j m' Hj Hs.
      destruct (abs_lt (m' !! j) 1e-5 || abs_lt (m' !! (j + 1)%Z) 1e-5) eqn:Hguard;
        [exact Hs|].
      apply orb_false_iff in Hguard. destruct Hguard as [Hg0 Hg1].
      apply wp_bind, wp_num_or.
      { destruct Hnan as [H|[_ H]]; [left; exact H | right].
        apply (scaled_is_Some m); [exact Hs | apply H; lia]. }
      intros mk Hmk.
      apply wp_bind, wp_num_or.
      { destruct Hnan as [H|[H _]]; [left; exact H | right; apply H; lia]. }
      intros dk Hdk.
      apply wp_bind, wp_rdiv.
      { destruct Hdiv as [H|H]; [left; exact H | right]. intros ->.
        pose proof (scaled_zero _ _ _ Hs (H j ltac:(lia) Hdk)) as Hz.
        rewrite Hz, abs_lt_zero in Hg0 by lra. discriminate. }
      intros Hdk0.
      apply wp_bind, wp_num_or.
      { destruct Hnan as [H|[_ H]]; [left; exact H | right].
        apply (scaled_is_Some m); [exact Hs | apply H; lia]. }
      intros mk1 Hmk1.
      apply wp_bind, wp_rdiv; [right; exact Hdk0|]. intros _. cbv zeta.
      destruct (Rlt_dec 9 (mk / dk * (mk / dk) + mk1 / dk * (mk1 / dk))) as [Hs9|Hs9];
        [|exact Hs].
      destruct (clamp_factor _ Hs9) as [Hsq Htk].
      apply wp_bind, wp_rdiv; [right; exact Hsq|]. intros _. apply wp_ok.
      intros i. destruct (decide (i = j + 1)%Z) as [->|H1].
      * rewrite lookup_insert_eq.
        pose proof (scaled_cell m m' (j + 1) mk1 dk _ Hs Hmk1 Hdk0 Htk) as Hc.
        destruct (m !! (j + 1)%Z); [exact Hc | contradiction].
      * rewrite lookup_insert_ne by congruence.
        destruct (decide (i = j)) as [->|H2].
        -- rewrite lookup_insert_eq.
           pose proof (scaled_cell m m' j mk dk _ Hs Hmk Hdk0 Htk) as Hc.
           destruct (m !! j); [exact Hc | contradiction].
        -- rewrite lookup_insert_ne by congruence. apply Hs.
  - auto.
Qed.

Lemma vectors_spec E (L : Z) (m dx : gmap Z R) :
  E NaNOperand ∨ ((∀ k : Z, (0 <= k < L)%Z → is_Some (m !! k)) ∧
                  (∀ k : Z, (0 <= k < L)%Z → is_Some (dx !! k))) →
  wp (monotone.vectors L m dx) (vectors_post L m dx) E.
Proof.
  intros Hnan. unfold monotone.vectors.
  destruct (Z_lt_le_dec (L - 1) (-1)) as [Hlt|Hge].
  { rewrite for_range_empty by lia. split; [simpl; lia | intros; lia]. }
  eapply wp_mono.
  - apply (wp_for_range
      (fun n ts => Z.of_nat (length ts) = n ∧
         ∀ (i : Z) (mi dxi : R), (0 <= i < n)%Z →
           m !! i = Some mi → dx !! i = Some dxi →
           ts !! Z.to_nat i = Some {| x := dxi / 3 / (1 + mi * mi);
                                      y := mi * dxi / 3 / (1 + mi * mi) |}%R)).
    + lia.
    + split; [reflexivity | intros; lia].
    + intros j ts Hj [Hlen Hts].
      apply wp_bind, wp_num_or.
      { destruct Hnan as [H|[H _]]; [left; exact H | right; apply H; lia]. }
      intros mj Hmj. cbv zeta.
      apply wp_bind, wp_num_or.
      { destruct Hnan as [H|[_ H]]; [left; exact H | right; apply H; lia]. }
      intros dxj Hdxj.
      assert (Hlen0 : (1 + mj * mj)%R ≠ 0%R) by nra.
      apply wp_bind, wp_rdiv; [right; exact Hlen0|]. intros _.
      apply wp_bind, wp_rdiv; [right; exact Hlen0|]. intros _.
      apply wp_ok. split; [rewrite length_app; simpl; lia|].
      intros i mi dxi Hi Hmi Hdxi.
      destruct (decide (i = j)) as [->|Hne].
      * rewrite lookup_app_r by lia.
        replace (Z.to_nat j - length ts)%nat with 0%nat by lia. simpl.
        congruence.
      * rewrite lookup_app_l by lia. apply Hts; auto. lia.
  - intros ts [Hlen Hts]. split; [lia|].
    intros i mi dxi Hi. apply Hts. lia.
Qed.

Lemma monotoneTangents_spec E (points : list point) (from : option Z) (to : Z) :
  E TypeError ∨ in_bounds points from to →
  (2 <= range_length points from to)%Z →
  wp (monotoneTangents points from to)
     (tangents_post points (range_start points from to) (range_length points from to)) E.
Proof.
  intros Hreads HL.
  unfold monotoneTangents, range_start, range_length, in_bounds in *.
  destruct (range points from to) as [[L f] t] eqn:Er. simpl in HL. simpl.
  assert (HLt : L = (t - f + 1)%Z).
  { unfold range in Er. destruct from; injection Er as <- <- <-; lia. }
  assert (Hr : E TypeError ∨ valid points f L).
  { destruct Hreads as [H|[H0 H1]]; [left; exact H | right]. split; lia. }
  apply wp_bind. eapply wp_mono; [apply (secants_spec _ _ _ _ Hr)|]. intros d Hd.
  apply wp_bind. eapply wp_mono; [apply (init_spec _ _ _ _ Hr d HL Hd)|].
  intros [m dx] [Hm Hdx].
  apply wp_bind. eapply wp_mono; [apply flatten_spec|]. intros m1 [Hflat Hsame].
  assert (Hm1 : cells points (fun v => 0 <= v)%R L m1).
  { intros k Hk. destruct (Hm k Hk) as (v & Hv & Hpos).
    destruct (Hsame k) as [H|H]; rewrite H.
    - eauto.
    - exists 0%R. split; [reflexivity | intros _; lra]. }
  apply wp_bind. eapply wp_mono.
  { apply clamp_spec; right.
    - intros k Hk Hdk. apply (Hflat k Hk Hdk).
    - split.
      + intros k Hk. destruct (Hd k Hk) as (p & q & v & _ & _ & _ & Hv). eauto.
      + intros k Hk. destruct (Hm1 k Hk) as (v & Hv & _). eauto. }
  intros m2 Hsc.
  assert (Hm2 : cells points (fun v => 0 <= v)%R L m2).
  { intros k Hk. destruct (Hm1 k Hk) as (v & Hv & Hpos).
    pose proof (Hsc k) as Hk2. rewrite Hv in Hk2. destruct Hk2 as (c & Hc & Hk2).
    exists (c * v)%R. split; [exact Hk2|]. intros Hinc. specialize (Hpos Hinc). nra. }
  eapply wp_mono.
  { apply vectors_spec. right. split.
    - intros k Hk. destruct (Hm2 k Hk) as (v & Hv & _). eauto.
    - intros k Hk. destruct (Hdx k Hk) as (v & Hv & _). eauto. }
  intros ts [Hlen Hts]. split; [lia|]. split.
  - intros i Hi.
    destruct (Hm2 i Hi) as (mi & Hmi & Hmpos).
    destruct (Hdx i Hi) as (dxi & Hdxi & Hdxpos).
    eexists. split; [apply (Hts i mi dxi Hi Hmi Hdxi)|].
    intros Hinc. specialize (Hmpos Hinc). specialize (Hdxpos Hinc). simpl.
    assert (Hlen0 : (0 < 1 + mi * mi)%R) by nra.
    split.
    + apply Rle_mult_inv_pos; [nra | exact Hlen0].
    + apply Rdiv_lt_0_compat; [lra | exact Hlen0].
  - intros k p q Hk Hp Hq Hsec.
    destruct (Hd k Hk) as (p' & q' & v & Hp' & Hq' & Hv & Hdk).
    assert (v = 0%R) as -> by congruence.
    destruct (Hflat k Hk Hdk) as [Hz0 Hz1].
    apply (scaled_zero _ _ _ Hsc) in Hz0, Hz1.
    destruct (Hdx k) as (dx0 & Hdx0 & _); [lia|].
    destruct (Hdx (k + 1)%Z) as (dx1 & Hdx1 & _); [lia|].
    eexists _, _.
    split; [apply (Hts k 0%R dx0); [lia | exact Hz0 | exact Hdx0]|].
    split; [apply (Hts (k + 1)%Z 0%R dx1); [lia | exact Hz1 | exact Hdx1]|].
    simpl. split; unfold Rdiv; ring.
Qed.

(** With fewer than two points in range nothing is divided, and only the
    empty list can be returned. *)
Lemma monotoneTangents_short (points : list point) (from : option Z) (to : Z) :
  (range_length points from to < 2)%Z →
  wp (monotoneTangents points from to) (fun ts => ts = []) no_div.
Proof.
  intros HL. unfold monotoneTangents, range_length in *.
  destruct (range points from to) as [[L f] t]. simpl in HL.
  assert (Hty : no_div TypeError) by discriminate.
  assert (Hnan : no_div NaNOperand) by discriminate.
  unfold monotone.secants. rewrite for_range_empty by lia. simpl.
  apply wp_bind. unfold monotone.init.
  rewrite lookup_empty. simpl set_cell.
  apply wp_bind, wp_deref_or; [left; exact Hty|]. intros q1 _.
  apply wp_bind, wp_deref_or; [left; exact Hty|]. intros q0 _.
  rewrite for_range_empty by lia. simpl.
  apply wp_bind, wp_deref_or; [left; exact Hty|]. intros pj _.
  apply wp_bind, wp_deref_or; [left; exact Hty|]. intros pj0 _.
  simpl.
  unfold monotone.flatten. rewrite for_range_empty by lia. simpl.
  unfold monotone.clamp. rewrite for_range_empty by lia. simpl.
  replace (Z.max 1 (L - 1)) with 1%Z by lia.
  unfold monotone.vectors.
  destruct (Z_lt_le_dec L 1) as [H0|H1].
  - rewrite for_range_empty by lia. reflexivity.
  - assert (L = 1%Z) as -> by lia.
    unfold for_range. simpl.
    rewrite lookup_delete_ne by lia. rewrite !lookup_empty. simpl set_cell.
    rewrite lookup_delete_eq. simpl. exact Hnan.
Qed.




(** C10. [monotoneTangents] never divides by zero, whatever its input; on
    two or more points it never computes with [undefined] either, and it
    returns when the range is in bounds.  Step 3 always returns, and leaves
    [m[k] = m[k+1] = 0] wherever [d[k] = 0]; steps 4 and 5 never increase
    the magnitude of a slope and keep a zero slope zero; hence on flattened
    slopes the guard [|m[k]| < 1e-5] skips every [k] with [d[k] = 0], and the
    divisions by [d[k]] are not reached with a zero secant. *)
Theorem monotone_division_safe :
  (∀ (points : list point) (from : option Z) (to : Z),
     monotoneTangents points from to ≠ Fail DivByZero ∧
     ((2 <= range_length points from to)%Z →
      monotoneTangents points from to ≠ Fail NaNOperand ∧
      (in_bounds points from to →
       ∃ ts : list vec, monotoneTangents points from to = Ok ts))) ∧
  (∀ (L : Z) (d m : gmap Z R),
     ∃ m' : gmap Z R, monotone.flatten L d m = Ok m' ∧ flat L d m') ∧
  (∀ (L : Z) (d m m' : gmap Z R),
     monotone.clamp L d m = Ok m' →
     ∀ (i : Z) (v : R), m !! i = Some v →
       ∃ v' : R, m' !! i = Some v' ∧ (Rabs v' <= Rabs v)%R ∧ (v = 0%R → v' = 0%R)) ∧
  (∀ (L : Z) (d m : gmap Z R),
     flat L d m → monotone.clamp L d m ≠ Fail DivByZero).
Proof.
  split; [|split; [|split]].
  - intros points from to. split.
    + destruct (Z_lt_le_dec (range_length points from to) 2) as [Hshort|HL].
      * exact (wp_no_div _ _ (monotoneTangents_short _ _ _ Hshort)).
      * apply (wp_no_div _ (tangents_post points (range_start points from to)
                              (range_length points from to))).
        apply monotoneTangents_spec; [left; discriminate | exact HL].
    + intros HL. split.
      * pose proof (monotoneTangents_spec (fun f => f = TypeError) points from to
                      (or_introl eq_refl) HL) as Hwp.
        intros Hnan. rewrite Hnan in Hwp. discriminate Hwp.
      * intros Hb.
        destruct (wp_total_inv _ _
          (monotoneTangents_spec total _ _ _ (or_intror Hb) HL)) as (ts & Hts & _).
        eauto.
  - intros L d m.
    destruct (wp_total_inv _ _ (flatten_spec total L d m)) as (m' & Hm' & Hflat & _).
    eauto.
  - intros L d m m' Hclamp i v Hv.
    assert (Hsc : scaled m m').
    { apply (wp_result (monotone.clamp L d m) _ (fun _ => True) m'); [|exact Hclamp].
      apply clamp_spec; left; exact I. }
    specialize (Hsc i). rewrite Hv in Hsc. destruct Hsc as (c & Hc & Hm').
    exists (c * v)%R. split; [exact Hm'|]. split.
    + rewrite Rabs_mult, (Rabs_pos_eq c) by lra.
      pose proof (Rabs_pos v). nra.
    + intros ->. ring.
  - intros L d m Hflat.
    apply (wp_no_div _ (scaled m)).
    apply clamp_spec; [right | left; discriminate].
    intros k Hk Hdk. apply (Hflat k Hk Hdk).
Qed.

Lemma monotone_division_safe_witness :
  let d : gmap Z R := <[0%Z := 0%R]> ∅ in
  let m : gmap Z R := <[1%Z := 2%R]> (<[0%Z := 1%R]> ∅) in
  monotoneTangents [Point 0 0; Point 1 1; Point 2 1; Point 3 5] None 0
    ≠ Fail DivByZero ∧
  (∃ ts : list vec,
     monotoneTangents [Point 0 0; Point 1 1; Point 2 1; Point 3 5] None 0 = Ok ts) ∧
  ∃ m' : gmap Z R,
    monotone.flatten 2 d m = Ok m' ∧ m' !! 0%Z = Some 0%R ∧
    monotone.clamp 2 d m' ≠ Fail DivByZero.
Proof.
  intros d m.
  destruct monotone_division_safe as (Hdiv & Hflatten & Hscale & Hclamp).
  destruct (Hdiv [Point 0 0; Point 1 1; Point 2 1; Point 3 5] None 0%Z)
    as (Hnodiv & Hret).
  split; [exact Hnodiv|]. split.
  { destruct Hret as (_ & Hok); [vm_compute; discriminate|].
    apply Hok. vm_compute. split; [discriminate | reflexivity]. }
  destruct (Hflatten 2%Z d m) as (m' & Hm' & Hflat).
  exists m'. split; [exact Hm'|]. split.
  - apply (Hflat 0%Z); [lia|]. apply lookup_insert_eq.
  - apply Hclamp. exact Hflat.
Defined.

(** ** The Hermite evaluator, command by command *)

(** The smooth commands appended by the loop of [curveHermite], one for
    each tangent [2 .. T - 1]. *)
Lemma hermite_smooth_loop_exact (points : list point) (tangents : list vec)
    (T pi0 : Z) (path0 : list cmd) (p : option point) (t : option vec) :
  T = Z.of_nat (length tangents) →
  (2 <= T)%Z → (0 <= pi0)%Z → (pi0 + (T - 2) <= Z.of_nat (length points))%Z →
  p = points.[pi0 - 1] → t = tangents.[1] →
  wp (for_range 2 (T - 1) (fun i '(path, p, t, pi) =>
        let p := points.[pi] in
        let t := tangents.[i] in
        q ← deref p; u ← derefv t;
        Ok (path ++ [SmoothCubicTo (left q - x u) (top q - y u) (left q) (top q)],
            p, t, (pi + 1)%Z)) (path0, p, t, pi0))
     (fun '(path, p, t, pi) =>
        pi = (pi0 + (T - 2))%Z ∧ p = points.[pi - 1] ∧ t = tangents.[T - 1] ∧
        ∃ rest : list cmd,
          path = path0 ++ rest ∧ Z.of_nat (length rest) = (T - 2)%Z ∧
          ∀ j : nat, (Z.of_nat j < T - 2)%Z →
            ∃ (q : point) (u : vec),
              points.[pi0 + Z.of_nat j] = Some q ∧
              tangents.[2 + Z.of_nat j] = Some u ∧
              rest !! j = Some (smooth_cmd q u)) total.
Proof.
  intros HT H2 Hpi0 Hpi1 Hp Ht.
  eapply wp_mono.
  - apply (wp_for_range
      (fun i '(path, p, t, pi) =>
         pi = (pi0 + (i - 2))%Z ∧ p = points.[pi - 1] ∧ t = tangents.[i - 1] ∧
         ∃ rest : list cmd,
           path = path0 ++ rest ∧ Z.of_nat (length rest) = (i - 2)%Z ∧
           ∀ j : nat, (Z.of_nat j < i - 2)%Z →
             ∃ (q : point) (u : vec),
               points.[pi0 + Z.of_nat j] = Some q ∧
               tangents.[2 + Z.of_nat j] = Some u ∧
               rest !! j = Some (smooth_cmd q u))).
    + lia.
    + split; [lia|]. split; [rewrite Hp; f_equal; lia|]. split; [exact Ht|].
      exists []. rewrite app_nil_r. split; [reflexivity|]. split; [reflexivity|].
      intros j Hj. lia.
    + intros i [[[path p'] t'] pi] Hi (-> & _ & _ & rest & -> & Hlen & Hrest).
      cbv zeta. apply wp_bind, wp_deref; [lia|]. intros q Hq.
      apply wp_bind, wp_derefv; [lia|]. intros u Hu.
      apply wp_ok. split; [lia|].
      split; [f_equal; lia|]. split; [f_equal; lia|].
      exists (rest ++ [smooth_cmd q u]). rewrite app_assoc.
      split; [reflexivity|]. split; [rewrite length_app; simpl; lia|].
      intros j Hj. destruct (decide (Z.of_nat j = i - 2)%Z) as [Heq|Hne].
      * exists q, u. rewrite lookup_app_r by lia.
        replace (j - length rest)%nat with 0%nat by lia.
        split; [rewrite <- Hq; f_equal; lia|].
        split; [rewrite <- Hu; f_equal; lia | reflexivity].
      * destruct (Hrest j) as (q' & u' & H1 & H2' & H3); [lia|].
        exists q', u'. rewrite lookup_app_l by lia. auto.
  - intros [[[path p'] t'] pi] (Hpi & Hp' & Ht' & rest & Hpath & Hlen & Hrest).
    replace (T - 1 + 1 - 2)%Z with (T - 2)%Z in * by lia.
    replace (T - 1 + 1 - 1)%Z with (T - 1)%Z in * by lia.
    split; [exact Hpi|]. split; [exact Hp'|]. split; [exact Ht'|].
    exists rest. auto.
Qed.

Section HermiteCommand.
Variables (points : list point) (tangents : list vec) (f L : Z) (explicit : bool).

Lemma hermite_command_first (q0 q : point) (v0 v : vec) :
  points.[f] = Some q0 → points.[f + 1] = Some q →
  tangents.[0] = Some v0 → tangents.[1] = Some v →
  hermite_command points tangents f L false explicit 0 (cubic_cmd q0 v0 q v).
Proof using Type.
  intros H1 H2 H3 H4. exists q0, q.
  split; [same_cell H1|]. split; [same_cell H2|].
  exists v0, v. split; [exact H3|]. split; [exact H4|].
  rewrite orb_true_r. reflexivity.
Qed.

Lemma hermite_command_next (k : Z) (q0 q : point) (v0 v : vec) :
  (0 < k)%Z →
  points.[f + k] = Some q0 → points.[f + k + 1] = Some q →
  tangents.[k] = Some v0 → tangents.[k + 1] = Some v →
  hermite_command points tangents f L false explicit k
    (if explicit then cubic_cmd q0 v0 q v else smooth_cmd q v).
Proof using Type.
  intros Hk H1 H2 H3 H4. exists q0, q.
  split; [exact H1|]. split; [exact H2|].
  exists v0, v. split; [exact H3|]. split; [exact H4|].
  replace (k =? 0)%Z with false by (symmetry; apply Z.eqb_neq; lia).
  rewrite orb_false_r. reflexivity.
Qed.

Lemma hermite_command_in (q0 q : point) (u : vec) :
  points.[f] = Some q0 → points.[f + 1] = Some q → tangents.[0] = Some u →
  hermite_command points tangents f L true explicit 0 (quad_in_cmd q u).
Proof using Type.
  intros H1 H2 H3. exists q0, q.
  split; [same_cell H1|]. split; [same_cell H2|].
  left. split; [reflexivity|]. exists u. auto.
Qed.

Lemma hermite_command_out (k : Z) (q0 q : point) (u : vec) :
  k = (L - 2)%Z →
  points.[f + k] = Some q0 → points.[f + k + 1] = Some q → tangents.[k - 1] = Some u →
  hermite_command points tangents f L true explicit k (quad_out_cmd q0 u q).
Proof using Type.
  intros Hk H1 H2 H3. exists q0, q.
  split; [exact H1|]. split; [exact H2|].
  right. left. split; [exact Hk|]. exists u. auto.
Qed.

Lemma hermite_command_inner_first (q0 q : point) (v0 v : vec) :
  (1 < L - 2)%Z →
  points.[f + 1] = Some q0 → points.[f + 2] = Some q →
  tangents.[0] = Some v0 → tangents.[1] = Some v →
  hermite_command points tangents f L true explicit 1 (cubic_cmd q0 v0 q v).
Proof using Type.
  intros Hk H1 H2 H3 H4. exists q0, q.
  split; [exact H1|]. split; [same_cell H2|].
  right. right. split; [lia|]. exists v0, v.
  split; [exact H3|]. split; [exact H4|].
  rewrite orb_true_r. reflexivity.
Qed.

Lemma hermite_command_inner_next (k : Z) (q0 q : point) (v0 v : vec) :
  (1 < k < L - 2)%Z →
  points.[f + k] = Some q0 → points.[f + k + 1] = Some q →
  tangents.[k - 1] = Some v0 → tangents.[k] = Some v →
  hermite_command points tangents f L true explicit k
    (if explicit then cubic_cmd q0 v0 q v else smooth_cmd q v).
Proof using Type.
  intros Hk H1 H2 H3 H4. exists q0, q.
  split; [exact H1|]. split; [exact H2|].
  right. right. split; [lia|]. exists v0, v.
  split; [exact H3|]. split; [exact H4|].
  replace (k =? 1)%Z with false by (symmetry; apply Z.eqb_neq; lia).
  rewrite orb_false_r. reflexivity.
Qed.

End HermiteCommand.

(** [curveHermite], command by command. *)
Lemma curveHermite_exact (points : list point) (tangents : list vec)
    (from : option Z) (to : Z) :
  in_bounds points from to →
  (1 <= Z.of_nat (length tangents))%Z →
  Z.of_nat (length tangents) = range_length points from to ∨
  Z.of_nat (length tangents) = (range_length points from to - 2)%Z →
  wp (curveHermite points tangents from to)
     (hermite_path points tangents (range_start points from to)
        (range_length points from to)
        (negb (range_length points from to =? Z.of_nat (length tangents))%Z) false)
     total.
Proof.
  intros Hb H1 HT.
  destruct (in_bounds_range _ _ _ Hb) as (L & f & t & E & HLe & Hf & Ht & EL & Ef).
  rewrite EL in *. rewrite Ef. clear EL Ef.
  unfold curveHermite. rewrite E.
  remember (Z.of_nat (length tangents)) as T eqn:HTdef.
  replace (T <? 1)%Z with false by (symmetry; apply Z.ltb_ge; lia).
  destruct (at_index_defined tangents 0) as [u0 Hu0]; [lia|].
  assert (Hpt : ∀ k : Z, (0 <= k < L)%Z → ∃ q, points.[f + k] = Some q).
  { intros k Hk. apply at_index_defined. lia. }
  assert (Htg : ∀ k : Z, (0 <= k < T)%Z → ∃ u, tangents.[k] = Some u).
  { intros k Hk. apply at_index_defined. lia. }
  destruct HT as [HT|HT].
  - (* one tangent per point *)
    replace (L =? T)%Z with true by (symmetry; apply Z.eqb_eq; lia).
    simpl negb. simpl orb. cbv iota. simpl mbind at 1. cbv beta iota.
    destruct (Z.ltb_spec 1 T) as [H2|H2].
    + destruct (Htg 1%Z) as [u1 Hu1]; [lia|].
      destruct (Hpt 0%Z) as [a Ha]; [lia|]. rewrite Z.add_0_r in Ha.
      destruct (Hpt 1%Z) as [b Hb1]; [lia|].
      rewrite Ha, Hu0, Hu1. simpl. rewrite Hb1. simpl.
      apply wp_bind. eapply wp_mono.
      * apply (hermite_smooth_loop_exact points tangents T (f + 1 + 1)); eauto; try lia.
        same_cell Hb1.
      * intros [[[pth p'] t'] pi] (Hpi & Hp' & Ht' & rest & -> & Hlen & Hrest). simpl.
        split; [len_tac|].
        intros k Hk. destruct k as [|k].
        -- eexists. split; [reflexivity|].
           apply hermite_command_first; assumption.
        -- destruct (Hrest k) as (q' & u' & Hq' & Hu' & Hk'); [lia|].
           destruct (Hpt (Z.of_nat (S k))) as [q0 Hq0]; [lia|].
           destruct (Htg (Z.of_nat (S k))) as [v0 Hv0]; [lia|].
           exists (smooth_cmd q' u'). split; [exact Hk'|].
           apply (hermite_command_next points tangents f L false (Z.of_nat (S k)) q0 q' v0 u');
             [lia | exact Hq0 | same_cell Hq' | exact Hv0 | same_cell Hu'].
    + (* a single point with its tangent: nothing is drawn *)
      simpl. split; [simpl; lia|]. intros k Hk. lia.
  - (* tangents for the interior points only *)
    replace (L =? T)%Z with false by (symmetry; apply Z.eqb_neq; lia).
    replace (L =? T + 2)%Z with true by (symmetry; apply Z.eqb_eq; lia).
    simpl negb. simpl orb. cbv iota.
    destruct (Hpt 0%Z) as [a Ha]; [lia|]. rewrite Z.add_0_r in Ha.
    destruct (Hpt 1%Z) as [b Hb1]; [lia|].
    destruct (Hpt 2%Z) as [c Hc]; [lia|].
    destruct (Hpt (L - 2)%Z) as [y Hy]; [lia|].
    destruct (Hpt (L - 1)%Z) as [z Hz]; [lia|].
    destruct (Htg (T - 1)%Z) as [w Hw]; [lia|].
    rewrite Hb1, Hu0. simpl.
    destruct (Z.ltb_spec 1 T) as [H2|H2].
    + destruct (Htg 1%Z) as [u1 Hu1]; [lia|].
      rewrite Hu1, Hc. simpl.
      apply wp_bind. eapply wp_mono.
      * apply (hermite_smooth_loop_exact points tangents T (f + 2 + 1)); eauto; try lia.
        same_cell Hc.
      * intros [[[pth p'] t'] pi] (Hpi & Hp' & Ht' & rest & -> & Hlen & Hrest).
        simpl. subst p' t' pi.
        replace (f + 2 + 1 + (T - 2) - 1)%Z with (f + (L - 2))%Z by lia.
        replace (f + 2 + 1 + (T - 2))%Z with (f + (L - 1))%Z by lia.
        rewrite Hy, Hw, Hz. simpl.
        split; [len_tac|].
        intros k Hk. destruct k as [|[|k]].
        -- eexists. split; [reflexivity|].
           apply (hermite_command_in points tangents f L false a b u0); assumption.
        -- eexists. split; [reflexivity|].
           apply (hermite_command_inner_first points tangents f L false b c u0 u1);
             [lia | assumption..].
        -- match goal with
           | |- context [(?c1 :: ?c2 :: ?l) !! S (S k)] =>
               change ((c1 :: c2 :: l) !! S (S k)) with (l !! k)
           end.
           destruct (decide (Z.of_nat k = T - 2)%Z) as [Hlast|Hmid].
           ++ exists (quad_out_cmd y w z). rewrite lookup_app_r by lia.
              replace (k - length rest)%nat with 0%nat by lia.
              split; [reflexivity|].
              apply hermite_command_out;
                [lia | same_cell Hy | same_cell Hz | same_cell Hw].
           ++ destruct (Hrest k) as (q' & u' & Hq' & Hu' & Hk'); [lia|].
              destruct (Hpt (Z.of_nat (S (S k)))) as [q0 Hq0]; [lia|].
              destruct (Htg (Z.of_nat (S (S k)) - 1)%Z) as [v0 Hv0]; [lia|].
              exists (smooth_cmd q' u'). rewrite lookup_app_l by lia.
              split; [exact Hk'|].
              apply (hermite_command_inner_next points tangents f L false
                       (Z.of_nat (S (S k))) q0 q' v0 u');
                [lia | exact Hq0 | same_cell Hq' | exact Hv0 | same_cell Hu'].
    + (* a single tangent: the two boundary commands only *)
      simpl. rewrite Hc. simpl.
      split; [len_tac|].
      intros k Hk. destruct k as [|[|k]]; [| |lia].
      * eexists. split; [reflexivity|].
        apply (hermite_command_in points tangents f L false a b u0); assumption.
      * eexists. split; [reflexivity|].
        apply (hermite_command_out points tangents f L false 1 b c u0);
          [lia | assumption | same_cell Hc | exact Hu0].
Qed.

(** The segments pushed by the loop of [curveHermiteSegments], one for each
    tangent [1 .. T - 1]. *)
Lemma hermite_segments_loop (points : list point) (tangents : list vec)
    (T pi0 : Z) (paths0 : list segment) (p0 p : option point) (t0 t : option vec) :
  T = Z.of_nat (length tangents) →
  (1 <= T)%Z → (1 <= pi0)%Z → (pi0 + (T - 1) <= Z.of_nat (length points))%Z →
  p = points.[pi0 - 1] → t = tangents.[0] →
  wp (for_range 1 (T - 1) (fun i '(paths, p0, t0, p, t, pi) =>
        let p0 := p in
        let t0 := t in
        let p := points.[pi] in
        let t := tangents.[i] in
        q0 ← deref p0; u0 ← derefv t0; q ← deref p; u ← derefv t;
        Ok (paths ++ [([MoveTo (left q0) (top q0)],
                       [CubicTo (left q0 + x u0) (top q0 + y u0)
                                (left q - x u) (top q - y u)
                                (left q) (top q)])],
            p0, t0, p, t, (pi + 1)%Z)) (paths0, p0, t0, p, t, pi0))
     (fun '(paths, _, _, p, t, pi) =>
        pi = (pi0 + (T - 1))%Z ∧ p = points.[pi - 1] ∧ t = tangents.[T - 1] ∧
        ∃ rest : list segment,
          paths = paths0 ++ rest ∧ Z.of_nat (length rest) = (T - 1)%Z ∧
          ∀ j : nat, (Z.of_nat j < T - 1)%Z →
            ∃ (q0 q : point) (v0 v : vec),
              points.[pi0 - 1 + Z.of_nat j] = Some q0 ∧
              points.[pi0 + Z.of_nat j] = Some q ∧
              tangents.[Z.of_nat j] = Some v0 ∧
              tangents.[Z.of_nat j + 1] = Some v ∧
              rest !! j = Some ([MoveTo (left q0) (top q0)], [cubic_cmd q0 v0 q v]))
     total.
Proof.
  intros HT H1 Hpi0 Hpi1 Hp Ht.
  eapply wp_mono.
  - apply (wp_for_range
      (fun i '(paths, _, _, p, t, pi) =>
         pi = (pi0 + (i - 1))%Z ∧ p = points.[pi - 1] ∧ t = tangents.[i - 1] ∧
         ∃ rest : list segment,
           paths = paths0 ++ rest ∧ Z.of_nat (length rest) = (i - 1)%Z ∧
           ∀ j : nat, (Z.of_nat j < i - 1)%Z →
             ∃ (q0 q : point) (v0 v : vec),
               points.[pi0 - 1 + Z.of_nat j] = Some q0 ∧
               points.[pi0 + Z.of_nat j] = Some q ∧
               tangents.[Z.of_nat j] = Some v0 ∧
               tangents.[Z.of_nat j + 1] = Some v ∧
               rest !! j = Some ([MoveTo (left q0) (top q0)], [cubic_cmd q0 v0 q v]))).
    + lia.
    + split; [lia|]. split; [rewrite Hp; f_equal; lia|]. split; [exact Ht|].
      exists []. rewrite app_nil_r. split; [reflexivity|]. split; [reflexivity|].
      intros j Hj. lia.
    + intros i [[[[[paths p0'] t0'] p'] t'] pi] Hi (-> & -> & -> & rest & -> & Hlen & Hrest).
      cbv zeta. apply wp_bind, wp_deref; [lia|]. intros q0 Hq0.
      apply wp_bind, wp_derefv; [lia|]. intros u0 Hu0.
      apply wp_bind, wp_deref; [lia|]. intros q Hq.
      apply wp_bind, wp_derefv; [lia|]. intros u Hu.
      apply wp_ok. split; [lia|].
      split; [f_equal; lia|]. split; [f_equal; lia|].
      eexists (rest ++ [_]). rewrite app_assoc.
      split; [reflexivity|]. split; [rewrite length_app; simpl; lia|].
      intros j Hj. destruct (decide (Z.of_nat j = i - 1)%Z) as [Heq|Hne].
      * exists q0, q, u0, u. rewrite (lookup_app_r rest) by lia.
        replace (j - length rest)%nat with 0%nat by lia.
        split; [same_cell Hq0|]. split; [same_cell Hq|].
        split; [same_cell Hu0|]. split; [same_cell Hu | reflexivity].
      * destruct (Hrest j) as (q0' & q' & v0' & v' & H1' & H2' & H3' & H4' & H5'); [lia|].
        exists q0', q', v0', v'. rewrite (lookup_app_l rest) by lia. auto.
  - intros [[[[[paths p0'] t0'] p'] t'] pi] (Hpi & Hp' & Ht' & rest & Hpath & Hlen & Hrest).
    replace (T - 1 + 1 - 1)%Z with (T - 1)%Z in * by lia.
    split; [exact Hpi|]. split; [exact Hp'|]. split; [exact Ht'|].
    exists rest. auto.
Qed.

(** [curveHermiteSegments], segment by segment. *)
Lemma curveHermiteSegments_exact (points : list point) (tangents : list vec)
    (from : option Z) (to : Z) :
  in_bounds points from to →
  (1 <= Z.of_nat (length tangents))%Z →
  Z.of_nat (length tangents) = range_length points from to ∨
  Z.of_nat (length tangents) = (range_length points from to - 2)%Z →
  wp (curveHermiteSegments points tangents from to)
     (hermite_segments points tangents (range_start points from to)
        (range_length points from to)
        (negb (range_length points from to =? Z.of_nat (length tangents))%Z))
     total.
Proof.
  intros Hb H1 HT.
  destruct (in_bounds_range _ _ _ Hb) as (L & f & t & E & HLe & Hf & Ht & EL & Ef).
  rewrite EL in *. rewrite Ef. clear EL Ef.
  unfold curveHermiteSegments. rewrite E.
  remember (Z.of_nat (length tangents)) as T eqn:HTdef.
  replace (T <? 1)%Z with false by (symmetry; apply Z.ltb_ge; lia).
  destruct (at_index_defined tangents 0) as [u0 Hu0]; [lia|].
  assert (Hpt : ∀ k : Z, (0 <= k < L)%Z → ∃ q, points.[f + k] = Some q).
  { intros k Hk. apply at_index_defined. lia. }
  destruct (Hpt 0%Z) as [a Ha]; [lia|]. rewrite Z.add_0_r in Ha.
  destruct HT as [HT|HT].
  - (* one tangent per point *)
    replace (L =? T)%Z with true by (symmetry; apply Z.eqb_eq; lia).
    simpl negb. simpl orb. cbv iota. simpl mbind at 1. cbv beta iota.
    apply wp_bind. eapply wp_mono.
    + apply (hermite_segments_loop points tangents T (f + 1)); eauto; try lia.
      f_equal. lia.
    + intros [[[[[paths p0'] t0'] p'] t'] pi] (Hpi & Hp' & Ht' & rest & -> & Hlen & Hrest).
      simpl. split; [lia|].
      intros k Hk.
      destruct (Hrest k) as (q0 & q & v0 & v & H1' & H2' & H3' & H4' & H5'); [lia|].
      exists q0, (cubic_cmd q0 v0 q v).
      split; [same_cell H1'|]. split; [exact H5'|].
      destruct k as [|k].
      * apply hermite_command_first;
          [same_cell H1' | same_cell H2' | exact H3' | exact H4'].
      * apply (hermite_command_next points tangents f L true (Z.of_nat (S k)) q0 q v0 v);
          [lia | same_cell H1' | same_cell H2' | exact H3' | exact H4'].
  - (* tangents for the interior points only *)
    replace (L =? T)%Z with false by (symmetry; apply Z.eqb_neq; lia).
    replace (L =? T + 2)%Z with true by (symmetry; apply Z.eqb_eq; lia).
    simpl negb. simpl orb. cbv iota.
    destruct (Hpt 1%Z) as [b Hb1]; [lia|].
    destruct (Hpt (L - 2)%Z) as [y Hy]; [lia|].
    destruct (Hpt (L - 1)%Z) as [z Hz]; [lia|].
    destruct (at_index_defined tangents (T - 1)) as [w Hw]; [lia|].
    rewrite Ha, Hb1, Hu0. simpl.
    apply wp_bind. eapply wp_mono.
    + apply (hermite_segments_loop points tangents T (f + 2)); eauto; try lia.
      same_cell Hb1.
    + intros [[[[[paths p0'] t0'] p'] t'] pi] (Hpi & Hp' & Ht' & rest & -> & Hlen & Hrest).
      simpl. subst p' t' pi.
      replace (f + 2 + (T - 1) - 1)%Z with (f + (L - 2))%Z by lia.
      replace (f + 2 + (T - 1))%Z with (f + (L - 1))%Z by lia.
      rewrite Hy, Hw, Hz. simpl.
      split; [len_tac|].
      intros k Hk. destruct k as [|k].
      * exists a, (quad_in_cmd b u0).
        split; [same_cell Ha|]. split; [reflexivity|].
        apply (hermite_command_in points tangents f L true a b u0); assumption.
      * match goal with
        | |- context [(?c1 :: ?l) !! S k] => change ((c1 :: l) !! S k) with (l !! k)
        end.
        destruct (decide (Z.of_nat k = T - 1)%Z) as [Hlast|Hmid].
        -- exists y, (quad_out_cmd y w z). rewrite (lookup_app_r rest) by lia.
           replace (k - length rest)%nat with 0%nat by lia.
           split; [same_cell Hy|]. split; [reflexivity|].
           apply hermite_command_out;
             [lia | same_cell Hy | same_cell Hz | same_cell Hw].
        -- destruct (Hrest k) as (q0 & q & v0 & v & H1' & H2' & H3' & H4' & H5'); [lia|].
           exists q0, (cubic_cmd q0 v0 q v). rewrite (lookup_app_l rest) by lia.
           split; [same_cell H1'|]. split; [exact H5'|].
           destruct k as [|k].
           ++ apply (hermite_command_inner_first points tangents f L true q0 q v0 v);
                [lia | same_cell H1' | same_cell H2' | exact H3' | exact H4'].
           ++ apply (hermite_command_inner_next points tangents f L true
                       (Z.of_nat (S (S k))) q0 q v0 v);
                [lia | same_cell H1' | same_cell H2' | same_cell H3' | same_cell H4'].
Qed.

Lemma hermite_command_endpoint (points : list point) (tangents : list vec)
    (f L : Z) (quad explicit : bool) (k : Z) (c : cmd) :
  hermite_command points tangents f L quad explicit k c →
  ∃ q : point, points.[f + k + 1] = Some q ∧ endpoint c = at_point q.
Proof.
  intros (q0 & q & Hq0 & Hq & Hc). exists q. split; [exact Hq|].
  destruct quad.
  - destruct Hc as [(_ & u & _ & ->) | [(_ & u & _ & ->) | (_ & u0 & u & _ & _ & ->)]];
      try reflexivity.
    destruct (explicit || (k =? 1)%Z); reflexivity.
  - destruct Hc as (u0 & u & _ & _ & ->).
    destruct (explicit || (k =? 0)%Z); reflexivity.
Qed.

(** X1. With [T] tangents for a range of [L] points in bounds, [T >= 1] and
    [T = L] or [T = L - 2], [curveHermiteSegments] returns [L - 1] segments.
    Segment [k] moves to point [k] of the range and draws one command to
    point [k + 1]: with [T = L] the cubic that leaves along tangent [k] and
    arrives along tangent [k + 1]; with [T = L - 2] a quadratic for the
    first and the last segment and, between them, the cubic along the
    tangents [k - 1] and [k].  Every cubic names both control points. *)
Theorem curveHermiteSegments_commands (points : list point) (tangents : list vec)
    (from : option Z) (to : Z) :
  in_bounds points from to →
  (1 <= Z.of_nat (length tangents))%Z →
  Z.of_nat (length tangents) = range_length points from to ∨
  Z.of_nat (length tangents) = (range_length points from to - 2)%Z →
  ∃ segs : list segment,
    curveHermiteSegments points tangents from to = Ok segs ∧
    hermite_segments points tangents (range_start points from to)
      (range_length points from to)
      (negb (range_length points from to =? Z.of_nat (length tangents))%Z) segs.
Proof.
  intros Hb H1 HT.
  exact (wp_total_inv _ _ (curveHermiteSegments_exact points tangents from to Hb H1 HT)).
Qed.

Lemma curveHermiteSegments_commands_witness :
  let points := [Point 0 0; Point 1 2; Point 3 1; Point 4 4] in
  let tangents := [Vec 1 0; Vec 1 1] in
  ∃ segs : list segment,
    curveHermiteSegments points tangents None 0 = Ok segs ∧
    hermite_segments points tangents 0 4 true segs.
Proof.
  apply (curveHermiteSegments_commands
           [Point 0 0; Point 1 2; Point 3 1; Point 4 4] [Vec 1 0; Vec 1 1] None 0).
  - vm_compute. split; [discriminate | reflexivity].
  - vm_compute. discriminate.
  - right. reflexivity.
Defined.

(** The end points of a Hermite path are the points of the range after
    the first. *)
Lemma hermite_path_endpoints (points : list point) (tangents : list vec)
    (from : option Z) (to : Z) (quad explicit : bool) (pth : list cmd) :
  in_bounds points from to →
  (0 <= range_length points from to)%Z →
  hermite_path points tangents (range_start points from to)
    (range_length points from to) quad explicit pth →
  endpoint <$> pth = at_point <$> drop 1 (range_points points from to).
Proof.
  intros Hb HL [Hlen Hcmd].
  destruct (range_points_lookup points from to Hb HL) as [Hplen Hps].
  apply list_eq. intros k. rewrite !list_lookup_fmap, lookup_drop.
  destruct (decide (Z.of_nat k < range_length points from to - 1)%Z) as [Hk|Hk].
  - destruct (Hcmd k Hk) as (c & Hc & Hhc).
    destruct (hermite_command_endpoint _ _ _ _ _ _ _ _ Hhc) as (q & Hq & He).
    rewrite Hc, Hps by lia.
    replace (points.[range_start points from to + Z.of_nat (1 + k)])
      with (points.[range_start points from to + Z.of_nat k + 1]) by (f_equal; lia).
    rewrite Hq. simpl. f_equal. exact He.
  - rewrite (lookup_ge_None_2 pth) by lia.
    rewrite lookup_ge_None_2 by lia. reflexivity.
Qed.

(** X2. Under the same conditions [curveHermite] returns a path of [L - 1]
    commands whose end points are, in order, the points of the range after
    the first: the curve passes through every data point. *)
Theorem curveHermite_interpolates (points : list point) (tangents : list vec)
    (from : option Z) (to : Z) :
  in_bounds points from to →
  (1 <= Z.of_nat (length tangents))%Z →
  Z.of_nat (length tangents) = range_length points from to ∨
  Z.of_nat (length tangents) = (range_length points from to - 2)%Z →
  ∃ pth : list cmd,
    curveHermite points tangents from to = Ok pth ∧
    Z.of_nat (length pth) = (range_length points from to - 1)%Z ∧
    endpoint <$> pth = at_point <$> drop 1 (range_points points from to).
Proof.
  intros Hb H1 HT.
  destruct (wp_total_inv _ _ (curveHermite_exact points tangents from to Hb H1 HT))
    as (pth & Hpth & Hpath).
  exists pth. split; [exact Hpth|]. split; [exact (proj1 Hpath)|].
  eapply hermite_path_endpoints; [exact Hb | lia | exact Hpath].
Qed.

Lemma curveHermite_interpolates_witness :
  let points := [Point 0 0; Point 1 2; Point 3 1; Point 4 4] in
  ∃ pth : list cmd,
    curveHermite points [Vec 1 0; Vec 1 1] None 0 = Ok pth ∧
    Z.of_nat (length pth) = 3%Z ∧
    endpoint <$> pth = [Vec 1 2; Vec 3 1; Vec 4 4].
Proof.
  apply (curveHermite_interpolates
           [Point 0 0; Point 1 2; Point 3 1; Point 4 4] [Vec 1 0; Vec 1 1] None 0).
  - vm_compute. split; [discriminate | reflexivity].
  - vm_compute. discriminate.
  - right. reflexivity.
Defined.

(** The explicit form of a command: the same command, or for a smooth
    cubic the cubic that names the first control point too. *)
Lemma hermite_command_explicit (points : list point) (tangents : list vec)
    (f L : Z) (quad : bool) (k : Z) (c c' : cmd) :
  (quad = true → (2 < L)%Z) →
  hermite_command points tangents f L quad false k c →
  hermite_command points tangents f L quad true k c' →
  match c with
  | SmoothCubicTo c2x c2y px py =>
      ∃ (q0 : point) (u0 : vec),
        points.[f + k] = Some q0 ∧
        tangents.[if quad then (k - 1)%Z else k] = Some u0 ∧
        (if quad then 1 < k < L - 2 else 0 < k)%Z ∧
        c' = CubicTo (left q0 + x u0) (top q0 + y u0) c2x c2y px py
  | _ => c' = c
  end.
Proof.
  intros HL (q0 & q & Hq0 & Hq & Hc) (q0' & q' & Hq0' & Hq' & Hc').
  assert (q0' = q0) as -> by congruence. assert (q' = q) as -> by congruence.
  destruct quad.
  - specialize (HL eq_refl).
    destruct Hc as [(Hk & u & Hu & ->) | [(Hk & u & Hu & ->) | (Hk & u0 & u & Hu0 & Hu & ->)]];
    destruct Hc' as [(Hk' & v & Hv & ->) | [(Hk' & v & Hv & ->) | (Hk' & v0 & v & Hv0 & Hv & ->)]];
      try lia.
    + assert (v = u) as -> by congruence. reflexivity.
    + assert (v = u) as -> by congruence. reflexivity.
    + assert (v0 = u0) as -> by congruence. assert (v = u) as -> by congruence.
      simpl orb. cbv iota.
      destruct (Z.eqb_spec k 1) as [->|Hne]; [reflexivity|].
      exists q0, u0. split; [exact Hq0|]. split; [exact Hu0|]. split; [lia | reflexivity].
  - destruct Hc as (u0 & u & Hu0 & Hu & ->). destruct Hc' as (v0 & v & Hv0 & Hv & ->).
    assert (v0 = u0) as -> by congruence. assert (v = u) as -> by congruence.
    simpl orb. cbv iota.
    destruct (Z.eqb_spec k 0) as [->|Hne]; [reflexivity|].
    exists q0, u0. split; [exact Hq0|]. split; [exact Hu0|].
    split; [|reflexivity].
    apply at_index_bound in Hu0. lia.
Qed.

(** How a cubic command arrives: at the point, along its tangent. *)
Lemma hermite_command_arrival (points : list point) (tangents : list vec)
    (f L : Z) (quad explicit : bool) (j : Z) (c : cmd) :
  hermite_command points tangents f L quad explicit j c →
  (if quad then 0 < j < L - 2 else True)%Z →
  ∃ (q : point) (u : vec),
    points.[f + j + 1] = Some q ∧
    tangents.[if quad then j else (j + 1)%Z] = Some u ∧
    endpoint c = at_point q ∧
    last_control c = {| x := left q - x u; y := top q - y u |}%R.
Proof.
  intros (q0 & q & Hq0 & Hq & Hc) Hj. destruct quad.
  - destruct Hc as [(Hk & _) | [(Hk & _) | (Hk & u0 & u & Hu0 & Hu & ->)]]; try lia.
    exists q, u. split; [exact Hq|]. split; [exact Hu|].
    destruct (explicit || (j =? 1)%Z); split; reflexivity.
  - destruct Hc as (u0 & u & Hu0 & Hu & ->).
    exists q, u. split; [exact Hq|]. split; [exact Hu|].
    destruct (explicit || (j =? 0)%Z); split; reflexivity.
Qed.

(** X3. The continuous path and the segments draw the same curve.  Under
    the same conditions they have the same number of entries; a command of
    the path that is not a smooth cubic is the command of its segment; and
    where the path has the smooth cubic [S c2, p], the segment has the cubic
    [C r, c2, p] whose first control point [r] is the mirror image, in the
    end point of the previous command, of that command's last control
    point, which is the point an SVG renderer supplies for [S]. *)
Theorem curveHermite_smooth_is_reflection (points : list point) (tangents : list vec)
    (from : option Z) (to : Z) :
  in_bounds points from to →
  (1 <= Z.of_nat (length tangents))%Z →
  Z.of_nat (length tangents) = range_length points from to ∨
  Z.of_nat (length tangents) = (range_length points from to - 2)%Z →
  ∃ (pth : list cmd) (segs : list segment),
    curveHermite points tangents from to = Ok pth ∧
    curveHermiteSegments points tangents from to = Ok segs ∧
    length pth = length segs ∧
    ∀ (k : nat) (c : cmd), pth !! k = Some c →
      ∃ (mv : list cmd) (c' : cmd),
        segs !! k = Some (mv, [c']) ∧
        match c with
        | SmoothCubicTo c2x c2y px py =>
            ∃ prev : cmd,
              (0 < k)%nat ∧ pth !! Nat.pred k = Some prev ∧
              c' = CubicTo (x (reflect (endpoint prev) (last_control prev)))
                           (y (reflect (endpoint prev) (last_control prev)))
                           c2x c2y px py
        | _ => c' = c
        end.
Proof.
  intros Hb H1 HT.
  destruct (wp_total_inv _ _ (curveHermite_exact points tangents from to Hb H1 HT))
    as (pth & Hpth & Hlen & Hcmd).
  destruct (wp_total_inv _ _ (curveHermiteSegments_exact points tangents from to Hb H1 HT))
    as (segs & Hsegs & Hslen & Hseg).
  exists pth, segs. split; [exact Hpth|]. split; [exact Hsegs|]. split; [lia|].
  intros k c Hc.
  pose proof (lookup_lt_Some _ _ _ Hc) as Hk.
  destruct (Hcmd k) as (c0 & Hc0 & Hhc); [lia|].
  assert (c0 = c) as -> by congruence.
  destruct (Hseg k) as (q0 & c' & Hq0 & Hs & Hhc'); [lia|].
  exists [MoveTo (left q0) (top q0)], c'. split; [exact Hs|].
  set (L := range_length points from to) in *.
  set (f := range_start points from to) in *.
  set (quad := negb (L =? Z.of_nat (length tangents))%Z) in *.
  assert (HquadL : quad = true → (2 < L)%Z).
  { unfold quad. intros Hq. apply negb_true_iff, Z.eqb_neq in Hq. lia. }
  pose proof (hermite_command_explicit _ _ _ _ _ _ _ _ HquadL Hhc Hhc') as Hex.
  destruct c as [| | c2x c2y px py |]; try exact Hex.
  destruct Hex as (q0' & u0 & Hq0' & Hu0 & Hrange & ->).
  assert (Hk0 : (0 < k)%nat) by (destruct quad; lia).
  destruct (Hcmd (Nat.pred k)) as (prev & Hprev & Hhp); [lia|].
  exists prev. split; [exact Hk0|]. split; [exact Hprev|].
  destruct (hermite_command_arrival _ _ _ _ _ _ _ _ Hhp) as (q & u & Hq & Hu & He & Hl).
  { destruct quad; [lia | exact I]. }
  replace (f + Z.of_nat (Nat.pred k) + 1)%Z with (f + Z.of_nat k)%Z in Hq by lia.
  assert (q = q0') as -> by congruence.
  assert (u = u0) as ->.
  { destruct quad.
    - replace (Z.of_nat (Nat.pred k)) with (Z.of_nat k - 1)%Z in Hu by lia. congruence.
    - replace (Z.of_nat (Nat.pred k) + 1)%Z with (Z.of_nat k) in Hu by lia. congruence. }
  rewrite He, Hl. unfold reflect, at_point. simpl. f_equal; lra.
Qed.

Lemma curveHermite_smooth_is_reflection_witness :
  let points := [Point 0 0; Point 1 2; Point 3 1; Point 4 4] in
  let tangents := [Vec 1 0; Vec 1 1; Vec 1 0; Vec 1 1] in
  ∃ (pth : list cmd) (segs : list segment),
    curveHermite points tangents None 0 = Ok pth ∧
    curveHermiteSegments points tangents None 0 = Ok segs ∧
    length pth = length segs.
Proof.
  destruct (curveHermite_smooth_is_reflection
              [Point 0 0; Point 1 2; Point 3 1; Point 4 4]
              [Vec 1 0; Vec 1 1; Vec 1 0; Vec 1 1] None 0)
    as (pth & segs & H1 & H2 & H3 & _).
  - vm_compute. split; [discriminate | reflexivity].
  - vm_compute. discriminate.
  - left. reflexivity.
  - exists pth, segs. auto.
Defined.

(** ** The cardinal and monotone drivers *)

(** A driver hands its callees the range it has worked out. *)
Lemma range_normal (points : list point) (from : option Z) (to : Z) (L f t : Z) :
  range points from to = (L, f, t) → range points (Some f) t = (L, f, t).
Proof.
  unfold range. destruct from as [f0|]; intros [= <- <- <-]; [reflexivity|].
  f_equal. f_equal. lia.
Qed.

Section Drivers.
Variables (points : list point) (from : option Z) (to : Z).
Hypothesis three : (3 <= range_length points from to)%Z.

Lemma driver_range :
  ∃ L f t : Z, range points from to = (L, f, t) ∧ range points (Some f) t = (L, f, t) ∧
               (L <=? 2)%Z = false.
Proof using three.
  unfold range_length in three.
  destruct (range points from to) as [[L f] t] eqn:E. simpl in three.
  exists L, f, t. split; [reflexivity|]. split; [exact (range_normal _ _ _ _ _ _ E)|].
  apply Z.leb_gt. lia.
Qed.

Lemma curveCardinal_unfold (tension : R) :
  curveCardinal points tension from to =
    ts ← cardinalTangents points tension from to; curveHermite points ts from to.
Proof using three.
  destruct driver_range as (L & f & t & E & En & Hle).
  unfold curveCardinal, cardinalTangents, curveHermite. rewrite E, En, Hle. reflexivity.
Qed.

Lemma curveCardinalSegments_unfold (tension : R) :
  curveCardinalSegments points tension from to =
    ts ← cardinalTangents points tension from to;
    a ← curveHermiteSegments points ts from to; Ok (Arr a).
Proof using three.
  destruct driver_range as (L & f & t & E & En & Hle).
  unfold curveCardinalSegments, cardinalTangents, curveHermiteSegments.
  rewrite E, En, Hle. reflexivity.
Qed.

Lemma curveMonotone_unfold :
  curveMonotone points from to =
    ts ← monotoneTangents points from to; curveHermite points ts from to.
Proof using three.
  destruct driver_range as (L & f & t & E & En & Hle).
  unfold curveMonotone, monotoneTangents, curveHermite. rewrite E, En, Hle. reflexivity.
Qed.

Lemma curveMonotoneSegments_unfold :
  curveMonotoneSegments points from to =
    ts ← monotoneTangents points from to;
    a ← curveHermiteSegments points ts from to; Ok (Arr a).
Proof using three.
  destruct driver_range as (L & f & t & E & En & Hle).
  unfold curveMonotoneSegments, monotoneTangents, curveHermiteSegments.
  rewrite E, En, Hle. reflexivity.
Qed.

End Drivers.

(** X4. On a range of [L >= 3] points in bounds [curveCardinal] returns
    what [curveHermite] returns for the tangents of [cardinalTangents]: a
    path of [L - 1] commands that starts and ends with a quadratic, has
    cubics between, and whose end points are the points of the range after
    the first. *)
Theorem curveCardinal_path (points : list point) (tension : R)
    (from : option Z) (to : Z) :
  in_bounds points from to →
  (3 <= range_length points from to)%Z →
  ∃ (ts : list vec) (pth : list cmd) (q1 q2 : cmd) (mid : list cmd),
    cardinalTangents points tension from to = Ok ts ∧
    curveHermite points ts from to = Ok pth ∧
    curveCardinal points tension from to = Ok pth ∧
    pth = q1 :: mid ++ [q2] ∧ is_QuadTo q1 ∧ is_QuadTo q2 ∧
    Forall (fun c => is_CubicTo c ∨ is_SmoothCubicTo c) mid ∧
    Z.of_nat (length pth) = (range_length points from to - 1)%Z ∧
    endpoint <$> pth = at_point <$> drop 1 (range_points points from to).
Proof.
  intros Hb HL.
  destruct (wp_total_inv _ _ (cardinalTangents_spec points tension from to Hb HL))
    as (ts & Hts & Hlen & _).
  assert (HT : Z.of_nat (length ts) = (range_length points from to - 2)%Z) by lia.
  destruct (wp_total_inv _ _ (curveHermite_quad points ts from to Hb HL HT))
    as (pth & Hpth & q1 & q2 & mid & -> & Hq1 & Hq2 & Hmid & Hmlen).
  destruct (wp_total_inv _ _
    (curveHermite_exact points ts from to Hb ltac:(lia) (or_intror HT)))
    as (pth' & Hpth' & Hpath).
  assert (pth' = q1 :: mid ++ [q2]) as -> by congruence.
  exists ts, (q1 :: mid ++ [q2]), q1, q2, mid.
  split; [exact Hts|]. split; [exact Hpth|].
  split; [rewrite (curveCardinal_unfold points from to HL), Hts; exact Hpth|].
  split; [reflexivity|]. split; [exact Hq1|]. split; [exact Hq2|]. split; [exact Hmid|].
  split; [exact (proj1 Hpath)|].
  eapply hermite_path_endpoints; [exact Hb | lia | exact Hpath].
Qed.

Lemma curveCardinal_path_witness :
  let points := [Point 0 0; Point 1 2; Point 3 1; Point 4 4] in
  ∃ pth : list cmd,
    curveCardinal points (1/2) None 0 = Ok pth ∧
    Z.of_nat (length pth) = 3%Z ∧
    endpoint <$> pth = [Vec 1 2; Vec 3 1; Vec 4 4].
Proof.
  destruct (curveCardinal_path [Point 0 0; Point 1 2; Point 3 1; Point 4 4] (1/2) None 0)
    as (ts & pth & q1 & q2 & mid & _ & _ & H & _ & _ & _ & _ & Hlen & Hend).
  - vm_compute. split; [discriminate | reflexivity].
  - vm_compute. discriminate.
  - exists pth. split; [exact H|]. split; [exact Hlen | exact Hend].
Defined.

(** A command of a Hermite path is the command of its place. *)
Lemma hermite_path_lookup (points : list point) (tangents : list vec) (f L : Z)
    (quad explicit : bool) (pth : list cmd) (k : nat) (c : cmd) :
  hermite_path points tangents f L quad explicit pth →
  pth !! k = Some c →
  (Z.of_nat k < L - 1)%Z ∧
  hermite_command points tangents f L quad explicit (Z.of_nat k) c.
Proof.
  intros [Hlen Hcmd] Hk.
  pose proof (lookup_lt_Some _ _ _ Hk) as Hlt.
  assert (Hk' : (Z.of_nat k < L - 1)%Z) by lia.
  split; [exact Hk'|].
  destruct (Hcmd k Hk') as (c' & Hc' & Hcom).
  assert (c' = c) as -> by congruence. exact Hcom.
Qed.

(** The two points a command joins, as points of the range. *)
Lemma hermite_command_points (points : list point) (tangents : list vec)
    (from : option Z) (to : Z) (quad explicit : bool) (k : nat) (c : cmd) :
  in_bounds points from to →
  (Z.of_nat k < range_length points from to - 1)%Z →
  hermite_command points tangents (range_start points from to)
    (range_length points from to) quad explicit (Z.of_nat k) c →
  ∃ q0 q : point,
    points.[range_start points from to + Z.of_nat k] = Some q0 ∧
    points.[range_start points from to + Z.of_nat k + 1] = Some q ∧
    range_points points from to !! k = Some q0 ∧
    range_points points from to !! S k = Some q.
Proof.
  intros Hb Hk (q0 & q & Hq0 & Hq & _).
  destruct (range_points_lookup points from to Hb ltac:(lia)) as [_ Hps].
  exists q0, q. split; [exact Hq0|]. split; [exact Hq|].
  split.
  - rewrite Hps by lia. exact Hq0.
  - rewrite Hps by lia. rewrite <- Hq. f_equal. lia.
Qed.

(** With zero tangents every point a command names is one of the two data
    points it joins. *)
Lemma hermite_command_zero (points : list point) (tangents : list vec)
    (f L : Z) (quad explicit : bool) (k : Z) (c : cmd) :
  (∀ (i : Z) (u : vec), tangents.[i] = Some u → u = {| x := 0; y := 0 |}) →
  hermite_command points tangents f L quad explicit k c →
  ∃ q0 q : point,
    points.[f + k] = Some q0 ∧ points.[f + k + 1] = Some q ∧
    ∀ v : vec, v ∈ controls c → v = at_point q0 ∨ v = at_point q.
Proof.
  intros Hz (q0 & q & Hq0 & Hq & Hc).
  exists q0, q. split; [exact Hq0|]. split; [exact Hq|].
  assert (Hl : ∀ a : R, (a - 0 * 2 / 3 = a)%R) by (intros; lra).
  assert (Hr : ∀ a : R, (a + 0 * 2 / 3 = a)%R) by (intros; lra).
  assert (Hm : ∀ a : R, (a - 0 = a)%R) by (intros; lra).
  assert (Hp : ∀ a : R, (a + 0 = a)%R) by (intros; lra).
  destruct quad.
  - destruct Hc as [(_ & u & Hu & ->) | [(_ & u & Hu & ->) | (_ & u0 & u & Hu0 & Hu & ->)]].
    + rewrite (Hz _ _ Hu). unfold quad_in_cmd, at_point. cbn [controls x y].
      rewrite !Hl. intros v Hv. right.
      repeat (apply elem_of_cons in Hv; destruct Hv as [->|Hv]; [reflexivity|]).
      inversion Hv.
    + rewrite (Hz _ _ Hu). unfold quad_out_cmd, at_point. cbn [controls x y].
      rewrite !Hr. intros v Hv.
      apply elem_of_cons in Hv. destruct Hv as [->|Hv]; [left; reflexivity|].
      apply elem_of_cons in Hv. destruct Hv as [->|Hv]; [right; reflexivity|].
      inversion Hv.
    + rewrite (Hz _ _ Hu), (Hz _ _ Hu0). unfold at_point.
      destruct (explicit || (k =? 1)%Z); unfold cubic_cmd, smooth_cmd;
        cbn [controls x y]; rewrite ?Hp, ?Hm; intros v Hv.
      * apply elem_of_cons in Hv. destruct Hv as [->|Hv]; [left; reflexivity|].
        repeat (apply elem_of_cons in Hv; destruct Hv as [->|Hv]; [right; reflexivity|]).
        inversion Hv.
      * repeat (apply elem_of_cons in Hv; destruct Hv as [->|Hv]; [right; reflexivity|]).
        inversion Hv.
  - destruct Hc as (u0 & u & Hu0 & Hu & ->).
    rewrite (Hz _ _ Hu), (Hz _ _ Hu0). unfold at_point.
    destruct (explicit || (k =? 0)%Z); unfold cubic_cmd, smooth_cmd;
      cbn [controls x y]; rewrite ?Hp, ?Hm; intros v Hv.
    + apply elem_of_cons in Hv. destruct Hv as [->|Hv]; [left; reflexivity|].
      repeat (apply elem_of_cons in Hv; destruct Hv as [->|Hv]; [right; reflexivity|]).
      inversion Hv.
    + repeat (apply elem_of_cons in Hv; destruct Hv as [->|Hv]; [right; reflexivity|]).
      inversion Hv.
Qed.

Lemma replicate_at_index {A : Type} (n : nat) (a u : A) (i : Z) :
  (replicate n a).[i] = Some u → u = a.
Proof.
  intros H. pose proof (at_index_bound _ _ _ H) as Hi.
  rewrite at_index_lookup in H by lia.
  apply lookup_replicate in H. exact (proj1 H).
Qed.

(** X5. With [tension = 1] the cardinal spline is the polyline of the data:
    on a range of [L >= 3] points in bounds every control point and end
    point of command [k] of [curveCardinal] is point [k] or point [k + 1]
    of the range. *)
Theorem curveCardinal_tension_one_polyline (points : list point)
    (from : option Z) (to : Z) :
  in_bounds points from to →
  (3 <= range_length points from to)%Z →
  ∃ pth : list cmd,
    curveCardinal points 1 from to = Ok pth ∧
    Z.of_nat (length pth) = (range_length points from to - 1)%Z ∧
    ∀ (k : nat) (c : cmd), pth !! k = Some c →
      ∃ p q : point,
        range_points points from to !! k = Some p ∧
        range_points points from to !! S k = Some q ∧
        ∀ v : vec, v ∈ controls c → v = at_point p ∨ v = at_point q.
Proof.
  intros Hb HL.
  destruct (wp_total_inv _ _ (cardinalTangents_spec points 1 from to Hb HL))
    as (ts & Hts & Hlen & Hi).
  assert (Hzero : ts = replicate (Z.to_nat (range_length points from to - 2))
                               {| x := 0; y := 0 |}).
  { apply list_eq. intros i.
    destruct (in_bounds_range _ _ _ Hb) as (L & f & t & E & HLe & Hf & Ht & EL & Ef).
    rewrite EL in *. rewrite Ef in *.
    destruct (decide (Z.of_nat i < L - 2)%Z) as [Hlt|Hge].
    - destruct (at_index_defined points (f + Z.of_nat i)) as [pm Hpm]; [lia|].
      destruct (at_index_defined points (f + Z.of_nat i + 2)) as [pp Hpp]; [lia|].
      rewrite (Hi i pm pp Hlt Hpm Hpp).
      rewrite lookup_replicate_2 by lia.
      unfold cardinal_tangent. do 2 f_equal; lra.
    - rewrite lookup_ge_None_2 by lia.
      symmetry. apply lookup_ge_None_2. rewrite length_replicate. lia. }
  assert (HT : Z.of_nat (length ts) = (range_length points from to - 2)%Z) by lia.
  destruct (wp_total_inv _ _
    (curveHermite_exact points ts from to Hb ltac:(lia) (or_intror HT)))
    as (pth & Hpth & Hpath).
  exists pth.
  split; [rewrite (curveCardinal_unfold points from to HL), Hts; exact Hpth|].
  split; [exact (proj1 Hpath)|].
  intros k c Hk.
  destruct (hermite_path_lookup _ _ _ _ _ _ _ _ _ Hpath Hk) as [Hlt Hcom].
  destruct (hermite_command_points _ _ _ _ _ _ _ _ Hb Hlt Hcom)
    as (q0 & q & Hq0 & Hq & Hp0 & Hp1).
  assert (Hz : ∀ (i : Z) (u : vec), ts.[i] = Some u → u = {| x := 0; y := 0 |}).
  { rewrite Hzero. intros i u. apply replicate_at_index. }
  destruct (hermite_command_zero _ _ _ _ _ _ _ _ Hz Hcom)
    as (q0' & q' & Hq0' & Hq' & Hctl).
  assert (q0' = q0) as -> by congruence. assert (q' = q) as -> by congruence.
  exists q0, q. split; [exact Hp0|]. split; [exact Hp1 | exact Hctl].
Qed.

Lemma curveCardinal_tension_one_polyline_witness :
  let points := [Point 0 0; Point 1 2; Point 3 1; Point 4 4] in
  ∃ pth : list cmd,
    curveCardinal points 1 None 0 = Ok pth ∧
    Z.of_nat (length pth) = 3%Z ∧
    ∀ (k : nat) (c : cmd), pth !! k = Some c →
      ∃ p q : point,
        points !! k = Some p ∧ points !! S k = Some q ∧
        ∀ v : vec, v ∈ controls c → v = at_point p ∨ v = at_point q.
Proof.
  apply (curveCardinal_tension_one_polyline
           [Point 0 0; Point 1 2; Point 3 1; Point 4 4] None 0).
  - vm_compute. split; [discriminate | reflexivity].
  - vm_compute. discriminate.
Defined.

(** ** The monotone driver *)

(** X6. On a range of [L >= 3] points in bounds [curveMonotone] returns
    what [curveHermite] returns for the tangents of [monotoneTangents]: one
    cubic followed by smooth cubics, [L - 1] commands in all, whose end
    points are the points of the range after the first. *)
Theorem curveMonotone_path (points : list point) (from : option Z) (to : Z) :
  in_bounds points from to →
  (3 <= range_length points from to)%Z →
  ∃ (ts : list vec) (pth : list cmd) (c s : cmd) (rest : list cmd),
    monotoneTangents points from to = Ok ts ∧
    curveHermite points ts from to = Ok pth ∧
    curveMonotone points from to = Ok pth ∧
    pth = c :: s :: rest ∧ is_CubicTo c ∧ Forall is_SmoothCubicTo (s :: rest) ∧
    Z.of_nat (length pth) = (range_length points from to - 1)%Z ∧
    endpoint <$> pth = at_point <$> drop 1 (range_points points from to).
Proof.
  intros Hb HL.
  destruct (wp_total_inv _ _
    (monotoneTangents_spec total points from to (or_intror Hb) ltac:(lia)))
    as (ts & Hts & Hlen & _).
  destruct (wp_total_inv _ _ (curveHermite_full points ts from to Hb HL Hlen))
    as (pth & Hpth & c & s & rest & -> & Hc & Hs & _).
  destruct (wp_total_inv _ _
    (curveHermite_exact points ts from to Hb ltac:(lia) (or_introl Hlen)))
    as (pth' & Hpth' & Hpath).
  assert (pth' = c :: s :: rest) as -> by congruence.
  exists ts, (c :: s :: rest), c, s, rest.
  split; [exact Hts|]. split; [exact Hpth|].
  split; [rewrite (curveMonotone_unfold points from to HL), Hts; exact Hpth|].
  split; [reflexivity|]. split; [exact Hc|]. split; [exact Hs|].
  split; [exact (proj1 Hpath)|].
  eapply hermite_path_endpoints; [exact Hb | lia | exact Hpath].
Qed.

Lemma curveMonotone_path_witness :
  let points := [Point 0 0; Point 1 2; Point 3 2; Point 4 4] in
  ∃ pth : list cmd,
    curveMonotone points None 0 = Ok pth ∧
    Z.of_nat (length pth) = 3%Z ∧
    endpoint <$> pth = [Vec 1 2; Vec 3 2; Vec 4 4].
Proof.
  destruct (curveMonotone_path [Point 0 0; Point 1 2; Point 3 2; Point 4 4] None 0)
    as (ts & pth & c & s & rest & _ & _ & H & _ & _ & _ & Hlen & Hend).
  - vm_compute. split; [discriminate | reflexivity].
  - vm_compute. discriminate.
  - exists pth. split; [exact H|]. split; [exact Hlen | exact Hend].
Defined.








(** With tangents at the interior points only, the boundary commands are
    quadratic and the others are cubic with both control points. *)
Lemma hermite_command_quad_shape (points : list point) (tangents : list vec)
    (f L : Z) (k : Z) (c : cmd) :
  hermite_command points tangents f L true true k c →
  ((k = 0 ∨ k = L - 2)%Z → is_QuadTo c) ∧ ((0 < k < L - 2)%Z → is_CubicTo c).
Proof.
  intros (q0 & q & _ & _ & Hc).
  destruct Hc as [(Hk & u & _ & ->) | [(Hk & u & _ & ->) | (Hk & u0 & u & _ & _ & ->)]].
  - split; [intros _; exact I | lia].
  - split; [intros _; exact I | lia].
  - split; [lia | intros _; exact I].
Qed.

(** X9. On a range of [L >= 3] points in bounds [curveCardinalSegments]
    returns, as an array, what [curveHermiteSegments] returns for the
    tangents of [cardinalTangents]: [L - 1] segments, segment [k] moving to
    point [k] of the range and drawing one command that ends at point
    [k + 1], a quadratic for the first and the last segment and a cubic
    for the others. *)
Theorem curveCardinalSegments_array (points : list point) (tension : R)
    (from : option Z) (to : Z) :
  in_bounds points from to →
  (3 <= range_length points from to)%Z →
  ∃ (ts : list vec) (segs : list segment),
    cardinalTangents points tension from to = Ok ts ∧
    curveHermiteSegments points ts from to = Ok segs ∧
    curveCardinalSegments points tension from to = Ok (Arr segs) ∧
    Z.of_nat (length segs) = (range_length points from to - 1)%Z ∧
    ∀ (k : nat) (s : segment), segs !! k = Some s →
      ∃ (p q : point) (c : cmd),
        range_points points from to !! k = Some p ∧
        range_points points from to !! S k = Some q ∧
        s = ([MoveTo (left p) (top p)], [c]) ∧
        endpoint c = at_point q ∧
        ((k = 0%nat ∨ Z.of_nat k = range_length points from to - 2)%Z → is_QuadTo c) ∧
        ((0 < Z.of_nat k < range_length points from to - 2)%Z → is_CubicTo c).
Proof.
  intros Hb HL.
  destruct (wp_total_inv _ _ (cardinalTangents_spec points tension from to Hb HL))
    as (ts & Hts & Hlen & _).
  assert (HT : Z.of_nat (length ts) = (range_length points from to - 2)%Z) by lia.
  destruct (wp_total_inv _ _
    (curveHermiteSegments_exact points ts from to Hb ltac:(lia) (or_intror HT)))
    as (segs & Hsegs & Hslen & Hseg).
  replace (range_length points from to =? Z.of_nat (length ts))%Z with false in Hseg
    by (symmetry; apply Z.eqb_neq; lia).
  simpl negb in Hseg.
  exists ts, segs. split; [exact Hts|]. split; [exact Hsegs|].
  split; [rewrite (curveCardinalSegments_unfold points from to HL), Hts; simpl;
          rewrite Hsegs; reflexivity|].
  split; [exact Hslen|].
  intros k s Hk.
  pose proof (lookup_lt_Some _ _ _ Hk) as Hlt.
  assert (Hk' : (Z.of_nat k < range_length points from to - 1)%Z) by lia.
  destruct (Hseg k Hk') as (q0 & c & Hq0 & Hs & Hcom).
  destruct (hermite_command_points _ _ _ _ _ _ _ _ Hb Hk' Hcom)
    as (p & q & Hp & Hq & Hp0 & Hp1).
  assert (q0 = p) as -> by congruence.
  destruct (hermite_command_endpoint _ _ _ _ _ _ _ _ Hcom) as (q' & Hq' & Hend).
  assert (q' = q) as -> by congruence.
  destruct (hermite_command_quad_shape _ _ _ _ _ _ Hcom) as [Hquad Hcub].
  exists p, q, c. split; [exact Hp0|]. split; [exact Hp1|].
  split; [unfold segment, path in *; assert (Hsame := eq_trans (eq_sym Hk) Hs);
          injection Hsame as ->; reflexivity|].
  split; [exact Hend|].
  split; [intros [-> | Hlast]; apply Hquad; [left; reflexivity | right; exact Hlast]|].
  exact Hcub.
Qed.

Lemma curveCardinalSegments_array_witness :
  let points := [Point 0 0; Point 1 2; Point 3 1; Point 4 4] in
  ∃ segs : list segment,
    curveCardinalSegments points (1/2) None 0 = Ok (Arr segs) ∧
    Z.of_nat (length segs) = 3%Z.
Proof.
  destruct (curveCardinalSegments_array
              [Point 0 0; Point 1 2; Point 3 1; Point 4 4] (1/2) None 0)
    as (ts & segs & _ & _ & H & Hlen & _).
  - vm_compute. split; [discriminate | reflexivity].
  - vm_compute. discriminate.
  - exists segs. split; [exact H | exact Hlen].
Defined.

(** ** The basis spline over its windows *)

Section BasisWindows.
Variables (points : list point) (from : option Z) (to : Z).
Hypothesis bounds : in_bounds points from to.
Hypothesis three : (3 <= range_length points from to)%Z.

(** What the drivers read, as cells of the padded points. *)
Lemma padded_reads :
  ∃ (L f t : Z) (n : nat),
    range points from to = (L, f, t) ∧ (L <=? 2)%Z = false ∧
    t = (f + L - 1)%Z ∧ L = Z.of_nat n ∧
    n = length (range_points points from to) ∧
    length (pad (range_points points from to)) = (n + 4)%nat ∧
    points.[f] = pad (range_points points from to) !! 0%nat ∧
    points.[f] = pad (range_points points from to) !! 1%nat ∧
    (∀ k : nat, (k < n)%nat →
       points.[f + Z.of_nat k] = pad (range_points points from to) !! (k + 2)%nat) ∧
    pad (range_points points from to) !! (n + 2)%nat =
      pad (range_points points from to) !! (n + 1)%nat ∧
    pad (range_points points from to) !! (n + 3)%nat =
      pad (range_points points from to) !! (n + 1)%nat.
Proof using bounds three.
  destruct (range_points_lookup points from to bounds) as [Hlen Hps]; [lia|].
  destruct (in_bounds_range _ _ _ bounds) as (L & f & t & E & HLe & Hf & Ht & EL & Ef).
  rewrite EL in *. rewrite Ef in Hps.
  set (ps := range_points points from to) in *.
  destruct (lookup_lt_is_Some_2 ps 0) as [a Ha]; [lia|].
  destruct (lookup_lt_is_Some_2 ps (length ps - 1)) as [z Hz]; [lia|].
  destruct (pad_lookup ps a z Ha Hz) as (Hplen & Hp0 & Hp1 & Hpk & Hpl2 & Hpl3).
  assert (Hfirst : points.[f] = Some a).
  { rewrite <- Ha, (Hps 0%nat) by lia. f_equal. lia. }
  exists L, f, t, (length ps).
  split; [exact E|]. split; [apply Z.leb_gt; lia|]. split; [lia|].
  split; [lia|]. split; [reflexivity|]. split; [exact Hplen|].
  split; [congruence|]. split; [congruence|].
  split; [intros k Hk; rewrite Hpk by lia; symmetry; apply Hps; lia|].
  assert (Hpz : pad ps !! (length ps + 1)%nat = Some z).
  { replace (length ps + 1)%nat with (length ps - 1 + 2)%nat by lia.
    rewrite Hpk by lia. exact Hz. }
  split; congruence.
Qed.

(** One window of the padded points, as [convert] and [segment] see it. *)
Lemma window_at (n : nat) :
  (n + 3 < length (pad (range_points points from to)))%nat →
  ∃ w : point * point * point * point,
    windows4 (pad (range_points points from to)) !! n = Some w ∧
    pathBasis.convert (pad (range_points points from to) !! n)
                      (pad (range_points points from to) !! (n + 1)%nat)
                      (pad (range_points points from to) !! (n + 2)%nat)
                      (pad (range_points points from to) !! (n + 3)%nat)
      = Ok [window_curve w] ∧
    pathBasis.segment (pad (range_points points from to) !! n)
                      (pad (range_points points from to) !! (n + 1)%nat)
                      (pad (range_points points from to) !! (n + 2)%nat)
                      (pad (range_points points from to) !! (n + 3)%nat)
      = Ok (window_segment w).
Proof.
  intros Hn. set (ps := range_points points from to) in *.
  destruct (lookup_lt_is_Some_2 (pad ps) n) as [w0 H0]; [lia|].
  destruct (lookup_lt_is_Some_2 (pad ps) (n + 1)) as [w1 H1]; [lia|].
  destruct (lookup_lt_is_Some_2 (pad ps) (n + 2)) as [w2 H2]; [lia|].
  destruct (lookup_lt_is_Some_2 (pad ps) (n + 3)) as [w3 H3]; [lia|].
  exists (w0, w1, w2, w3). rewrite H0, H1, H2, H3.
  split; [apply windows4_lookup; assumption|]. split; reflexivity.
Qed.

(** [curveBasis] converts the windows one after the other. *)
Lemma curveBasis_windows :
  curveBasis points from to =
    Ok (window_curve <$> windows4 (pad (range_points points from to))).
Proof using bounds three.
  destruct padded_reads
    as (L & f & t & n & E & Hle & Ht & HL & Hn & Hplen & Hp0 & Hp1 & Hpk & Hl2 & Hl3).
  assert (Hn3 : (3 <= n)%nat).
  { unfold range_length in three. rewrite E in three. simpl in three. lia. }
  set (ps := range_points points from to) in *.
  set (W := windows4 (pad ps)).
  assert (HW : length W = (n + 1)%nat).
  { unfold W. rewrite windows4_length. lia. }
  unfold curveBasis. rewrite E, Hle.
  apply wp_total_eq. cbv zeta.
  destruct (window_at 0) as (w0 & Hw0 & Hc0 & _); [fold ps; lia|]. fold ps in Hw0, Hc0. fold W in Hw0.
  pose proof (Hpk 1%nat ltac:(lia)) as Hp3.
  change (Z.of_nat 1) with 1%Z in Hp3. change (1 + 2)%nat with 3%nat in Hp3.
  rewrite Hp3.
  change (0 + 1)%nat with 1%nat in Hc0. change (0 + 2)%nat with 2%nat in Hc0.
  change (0 + 3)%nat with 3%nat in Hc0.
  pose proof (Hpk 0%nat ltac:(lia)) as Hp2. rewrite Z.add_0_r in Hp2.
  change (0 + 2)%nat with 2%nat in Hp2.
  rewrite <- Hp0, <- Hp1, <- Hp2 in Hc0.
  rewrite Hc0. simpl.
  apply wp_bind. eapply wp_mono.
  - apply (wp_for_range
      (fun i '(p0, p1, p2, p3, path) =>
         ∃ k : nat, i = (f + 2 + Z.of_nat k)%Z ∧
           p1 = pad ps !! (k + 1)%nat ∧ p2 = pad ps !! (k + 2)%nat ∧
           p3 = pad ps !! (k + 3)%nat ∧ path = window_curve <$> take (S k) W)).
    + lia.
    + exists 0%nat. simpl. rewrite <- Hp1, <- Hp2.
      repeat split; [lia|].
      rewrite (take_S_r _ _ _ Hw0). reflexivity.
    + intros j [[[[p0 p1] p2] p3] path] Hj (k & -> & -> & -> & -> & ->).
      replace (f + 2 + Z.of_nat k)%Z with (f + Z.of_nat (k + 2))%Z by lia.
      rewrite Hpk by lia.
      destruct (window_at (k + 1)) as (w & Hw & Hc & _); [fold ps; lia|].
      fold ps in Hw, Hc. fold W in Hw.
      replace (k + 1 + 1)%nat with (k + 2)%nat in Hc by lia.
      replace (k + 1 + 2)%nat with (k + 3)%nat in Hc by lia.
      replace (k + 1 + 3)%nat with (k + 2 + 2)%nat in Hc by lia.
      rewrite Hc. simpl. exists (S k).
      replace (S k + 1)%nat with (k + 2)%nat by lia.
      replace (S k + 2)%nat with (k + 3)%nat by lia.
      replace (S k + 3)%nat with (k + 2 + 2)%nat by lia.
      repeat split; [lia|].
      replace (S (S k)) with (S (k + 1)) by lia.
      rewrite (take_S_r _ _ _ Hw), fmap_app.
      replace (k + 1)%nat with (S k) by lia. reflexivity.
  - intros [[[[p0 p1] p2] p3] path] (k & Hk & -> & -> & -> & ->).
    assert (k = (n - 2)%nat) as -> by lia.
    destruct (window_at (n - 1)) as (w1 & Hw1 & Hc1 & _); [fold ps; lia|].
    destruct (window_at n) as (w2 & Hw2 & Hc2 & _); [fold ps; lia|].
    fold ps in Hw1, Hc1, Hw2, Hc2. fold W in Hw1, Hw2.
    replace (n - 1 + 1)%nat with n in Hc1 by lia.
    replace (n - 1 + 2)%nat with (n + 1)%nat in Hc1 by lia.
    replace (n - 1 + 3)%nat with (n + 2)%nat in Hc1 by lia.
    rewrite Hl2 in Hc1, Hc2. rewrite Hl3 in Hc2.
    replace (n - 2 + 1)%nat with (n - 1)%nat by lia.
    replace (n - 2 + 2)%nat with n by lia.
    replace (n - 2 + 3)%nat with (n + 1)%nat by lia.
    rewrite Hc1. simpl. rewrite Hc2. simpl.
    replace (S (n - 2)) with (n - 1)%nat by lia.
    assert (Ht1 := take_S_r _ _ _ Hw1). replace (S (n - 1)) with n in Ht1 by lia.
    assert (Ht2 := take_S_r _ _ _ Hw2).
    rewrite <- (take_ge W (S n)) at 2 by lia.
    rewrite Ht2, Ht1, !fmap_app. reflexivity.
Qed.

Lemma drop_last_two {A : Type} (l : list A) (n : nat) (a b : A) :
  length l = (n + 2)%nat → l !! n = Some a → l !! (n + 1)%nat = Some b →
  drop n l = [a; b].
Proof.
  intros Hlen Ha Hb. apply list_eq. intros i. rewrite lookup_drop.
  destruct i as [|[|i]].
  - rewrite Nat.add_0_r. exact Ha.
  - exact Hb.
  - apply lookup_ge_None_2. lia.
Qed.

Lemma segments_reference_unfold (ps : list point)
    (w0 w1 wa wb : point * point * point * point) :
  windows4 (pad ps) !! 0%nat = Some w0 → windows4 (pad ps) !! 1%nat = Some w1 →
  drop (length ps - 1) (windows4 (pad ps)) = [wa; wb] →
  curveBasisSegments_reference ps =
    merged_segment w0 w1 ::
      (window_segment <$> take (length ps - 3) (drop 2 (windows4 (pad ps)))) ++
      [merged_segment wa wb].
Proof.
  unfold curveBasisSegments_reference. cbv zeta.
  remember (windows4 (pad ps)) as W eqn:EW. clear EW.
  intros H0 H1 Hd.
  destruct W as [|a [|b rest]]; try discriminate.
  rewrite Hd. simpl in H0, H1. congruence.
Qed.

(** [curveBasisSegments] makes one segment of the first two windows, one
    of each window that follows, and one of the last two. *)
Lemma curveBasisSegments_windows :
  curveBasisSegments points from to =
    Ok (Arr (curveBasisSegments_reference (range_points points from to))).
Proof using bounds three.
  destruct padded_reads
    as (L & f & t & n & E & Hle & Ht & HL & Hn & Hplen & Hp0 & Hp1 & Hpk & Hl2 & Hl3).
  assert (Hn3 : (3 <= n)%nat).
  { unfold range_length in three. rewrite E in three. simpl in three. lia. }
  set (ps := range_points points from to) in *.
  set (W := windows4 (pad ps)).
  assert (HW : length W = (n + 1)%nat).
  { unfold W. rewrite windows4_length. lia. }
  destruct (window_at 0) as (w0 & Hw0 & _ & Hs0); [fold ps; lia|].
  destruct (window_at 1) as (w1 & Hw1 & Hc1 & _); [fold ps; lia|].
  destruct (window_at (n - 1)) as (wa & Hwa & _ & Hsa); [fold ps; lia|].
  destruct (window_at n) as (wb & Hwb & Hcb & _); [fold ps; lia|].
  fold ps in Hw0, Hs0, Hw1, Hc1, Hwa, Hsa, Hwb, Hcb. fold W in Hw0, Hw1, Hwa, Hwb.
  assert (Hdrop : drop (n - 1) W = [wa; wb]).
  { apply drop_last_two; [lia | exact Hwa|].
    replace (n - 1 + 1)%nat with n by lia. exact Hwb. }
  rewrite (segments_reference_unfold ps w0 w1 wa wb Hw0 Hw1)
    by (rewrite <- Hn; exact Hdrop).
  rewrite <- Hn. fold W.
  pose proof (Hpk 0%nat ltac:(lia)) as Hp2. rewrite Z.add_0_r in Hp2.
  pose proof (Hpk 1%nat ltac:(lia)) as Hp3. change (Z.of_nat 1) with 1%Z in Hp3.
  pose proof (Hpk 2%nat ltac:(lia)) as Hp4. change (Z.of_nat 2) with 2%Z in Hp4.
  change (0 + 2)%nat with 2%nat in Hp2. change (1 + 2)%nat with 3%nat in Hp3.
  change (2 + 2)%nat with 4%nat in Hp4.
  change (0 + 1)%nat with 1%nat in Hs0. change (0 + 2)%nat with 2%nat in Hs0.
  change (0 + 3)%nat with 3%nat in Hs0.
  change (1 + 1)%nat with 2%nat in Hc1. change (1 + 2)%nat with 3%nat in Hc1.
  change (1 + 3)%nat with 4%nat in Hc1.
  replace (n - 1 + 1)%nat with n in Hsa by lia.
  replace (n - 1 + 2)%nat with (n + 1)%nat in Hsa by lia.
  replace (n - 1 + 3)%nat with (n + 2)%nat in Hsa by lia.
  rewrite Hl2 in Hsa, Hcb. rewrite Hl3 in Hcb.
  unfold curveBasisSegments. rewrite E, Hle.
  apply wp_total_eq. cbv zeta.
  rewrite Hp3, Hp4. rewrite Hp1 at 2. rewrite Hp2 at 2. rewrite Hp0 at 1.
  rewrite Hs0. simpl.
  rewrite Hp1 at 1. rewrite Hp2. rewrite Hc1. simpl.
  apply wp_bind. eapply wp_mono.
  - apply (wp_for_range
      (fun i '(p0, p1, p2, p3, paths) =>
         ∃ k : nat, i = (f + 3 + Z.of_nat k)%Z ∧
           p1 = pad ps !! (k + 2)%nat ∧ p2 = pad ps !! (k + 3)%nat ∧
           p3 = pad ps !! (k + 4)%nat ∧
           paths = merged_segment w0 w1 :: (window_segment <$> take k (drop 2 W)))).
    + lia.
    + exists 0%nat. repeat split. lia.
    + intros j [[[[p0 p1] p2] p3] paths] Hj (k & -> & -> & -> & -> & ->).
      replace (f + 3 + Z.of_nat k)%Z with (f + Z.of_nat (k + 3))%Z by lia.
      rewrite Hpk by lia.
      destruct (window_at (k + 2)) as (w & Hw & _ & Hs); [fold ps; lia|].
      fold ps in Hw, Hs. fold W in Hw.
      replace (k + 2 + 1)%nat with (k + 3)%nat in Hs by lia.
      replace (k + 2 + 2)%nat with (k + 4)%nat in Hs by lia.
      replace (k + 2 + 3)%nat with (k + 3 + 2)%nat in Hs by lia.
      rewrite Hs. simpl. exists (S k).
      replace (S k + 2)%nat with (k + 3)%nat by lia.
      replace (S k + 3)%nat with (k + 4)%nat by lia.
      replace (S k + 4)%nat with (k + 3 + 2)%nat by lia.
      repeat split; [lia|].
      assert (Hd : drop 2 W !! k = Some w).
      { rewrite lookup_drop. rewrite <- Hw. f_equal. lia. }
      rewrite (take_S_r _ _ _ Hd), fmap_app. reflexivity.
  - intros [[[[p0 p1] p2] p3] paths] (k & Hk & -> & -> & -> & ->).
    assert (k = (n - 3)%nat) as -> by lia.
    replace (n - 3 + 2)%nat with (n - 1)%nat by lia.
    replace (n - 3 + 3)%nat with n by lia.
    replace (n - 3 + 4)%nat with (n + 1)%nat by lia.
    rewrite Hsa. simpl. rewrite Hcb. simpl. reflexivity.
Qed.

(** The windows that the segments are made of. *)
Lemma segment_windows :
  ∃ (n : nat) (w0 w1 wa wb : point * point * point * point),
    n = length (range_points points from to) ∧ (3 <= n)%nat ∧
    Z.of_nat n = range_length points from to ∧
    length (windows4 (pad (range_points points from to))) = (n + 1)%nat ∧
    windows4 (pad (range_points points from to)) !! 0%nat = Some w0 ∧
    windows4 (pad (range_points points from to)) !! 1%nat = Some w1 ∧
    windows4 (pad (range_points points from to)) !! (n - 1)%nat = Some wa ∧
    windows4 (pad (range_points points from to)) !! n = Some wb ∧
    drop (n - 1) (windows4 (pad (range_points points from to))) = [wa; wb] ∧
    curveBasisSegments_reference (range_points points from to) =
      merged_segment w0 w1 ::
        (window_segment <$>
           take (n - 3) (drop 2 (windows4 (pad (range_points points from to))))) ++
        [merged_segment wa wb].
Proof using bounds three.
  destruct padded_reads
    as (L & f & t & n & E & Hle & Ht & HL & Hn & Hplen & Hp0 & Hp1 & Hpk & Hl2 & Hl3).
  assert (HLn : Z.of_nat n = range_length points from to).
  { unfold range_length. rewrite E. simpl. lia. }
  assert (Hn3 : (3 <= n)%nat) by lia.
  set (ps := range_points points from to) in *.
  set (W := windows4 (pad ps)).
  assert (HW : length W = (n + 1)%nat).
  { unfold W. rewrite windows4_length. lia. }
  destruct (lookup_lt_is_Some_2 W 0) as [w0 Hw0]; [lia|].
  destruct (lookup_lt_is_Some_2 W 1) as [w1 Hw1]; [lia|].
  destruct (lookup_lt_is_Some_2 W (n - 1)) as [wa Hwa]; [lia|].
  destruct (lookup_lt_is_Some_2 W n) as [wb Hwb]; [lia|].
  assert (Hdrop : drop (n - 1) W = [wa; wb]).
  { apply drop_last_two; [lia | exact Hwa|].
    replace (n - 1 + 1)%nat with n by lia. exact Hwb. }
  exists n, w0, w1, wa, wb. repeat (split; [assumption|]).
  rewrite (segments_reference_unfold ps w0 w1 wa wb Hw0 Hw1)
    by (rewrite <- Hn; exact Hdrop).
  rewrite <- Hn. reflexivity.
Qed.

End BasisWindows.





(** The curves of the segments, one after the other, are the curves of
    the windows. *)
Lemma window_segments_concat (M : list (point * point * point * point)) :
  concat (snd <$> (window_segment <$> M)) = window_curve <$> M.
Proof.
  induction M as [|w M IH]; [reflexivity|].
  rewrite !fmap_cons. simpl concat. rewrite IH. reflexivity.
Qed.

Lemma windows_split {A : Type} (W : list A) (n : nat) (w0 w1 : A) :
  (3 <= n)%nat → length W = (n + 1)%nat →
  W !! 0%nat = Some w0 → W !! 1%nat = Some w1 →
  W = [w0; w1] ++ take (n - 3) (drop 2 W) ++ drop (n - 1) W.
Proof.
  intros Hn HW H0 H1.
  rewrite <- (take_drop 2 W) at 1. f_equal.
  - destruct W as [|a [|b rest]]; simpl in H0, H1; try discriminate.
    injection H0 as ->. injection H1 as ->. reflexivity.
  - rewrite <- (take_drop (n - 3) (drop 2 W)) at 1. f_equal.
    rewrite drop_drop. f_equal. lia.
Qed.


(** X10. On a range of [L >= 3] points in bounds [curveBasisSegments]
    returns an array, the reference definition over the windows of the
    padded points: the first two windows drawn by one segment, the last two
    by one segment and each window between by its own.  The array has
    [L - 1] entries. *)
Theorem curveBasisSegments_merged_windows (points : list point)
    (from : option Z) (to : Z) :
  in_bounds points from to →
  (3 <= range_length points from to)%Z →
  curveBasisSegments points from to =
    Ok (Arr (curveBasisSegments_reference (range_points points from to))) ∧
  Z.of_nat (length (curveBasisSegments_reference (range_points points from to))) =
    (range_length points from to - 1)%Z.
Proof.
  intros Hb HL. split; [exact (curveBasisSegments_windows points from to Hb HL)|].
  destruct (segment_windows points from to Hb HL)
    as (n & w0 & w1 & wa & wb & Hn & Hn3 & HLn & HW & _ & _ & _ & _ & _ & ->).
  simpl length. rewrite length_app, length_fmap, length_take, length_drop.
  simpl length. lia.
Qed.

Lemma curveBasisSegments_merged_windows_witness :
  let points := [Point 0 0; Point 1 2; Point 3 1; Point 4 4; Point 6 0] in
  curveBasisSegments points None 0 = Ok (Arr (curveBasisSegments_reference points)) ∧
  length (curveBasisSegments_reference points) = 4%nat.
Proof.
  destruct (curveBasisSegments_merged_windows
              [Point 0 0; Point 1 2; Point 3 1; Point 4 4; Point 6 0] None 0)
    as [H _].
  - vm_compute. split; [discriminate | reflexivity].
  - vm_compute. discriminate.
  - split; [exact H | reflexivity].
Defined.

(** X11. On a range of [L >= 3] points in bounds the curve commands of the
    segments of [curveBasisSegments], taken one after the other, are the
    path of [curveBasis]. *)
Theorem curveBasisSegments_draws_curveBasis (points : list point)
    (from : option Z) (to : Z) :
  in_bounds points from to →
  (3 <= range_length points from to)%Z →
  ∃ (segs : list segment) (pth : list cmd),
    curveBasisSegments points from to = Ok (Arr segs) ∧
    curveBasis points from to = Ok pth ∧
    concat (snd <$> segs) = pth.
Proof.
  intros Hb HL.
  exists (curveBasisSegments_reference (range_points points from to)),
         (window_curve <$> windows4 (pad (range_points points from to))).
  split; [exact (curveBasisSegments_windows points from to Hb HL)|].
  split; [exact (curveBasis_windows points from to Hb HL)|].
  destruct (segment_windows points from to Hb HL)
    as (n & w0 & w1 & wa & wb & Hn & Hn3 & HLn & HW & H0 & H1 & _ & _ & Hdrop & ->).
  rewrite (windows_split _ n w0 w1 Hn3 HW H0 H1) at 2. rewrite Hdrop.
  rewrite fmap_cons, fmap_app. simpl concat.
  rewrite concat_app, window_segments_concat. simpl.
  rewrite !fmap_app. reflexivity.
Qed.

Lemma curveBasisSegments_draws_curveBasis_witness :
  let points := [Point 0 0; Point 1 2; Point 3 1; Point 4 4] in
  ∃ (segs : list segment) (pth : list cmd),
    curveBasisSegments points None 0 = Ok (Arr segs) ∧
    curveBasis points None 0 = Ok pth ∧
    concat (snd <$> segs) = pth.
Proof.
  apply (curveBasisSegments_draws_curveBasis
           [Point 0 0; Point 1 2; Point 3 1; Point 4 4] None 0).
  - vm_compute. split; [discriminate | reflexivity].
  - vm_compute. discriminate.
Defined.







(** ** Ranges that leave the array *)

Lemma wp_fails {A : Type} (m : outcome A) :
  wp m (fun _ => False) type_error → m = Fail TypeError.
Proof. destruct m as [a|f]; simpl; [intros [] | intros ->; reflexivity]. Qed.

Lemma wp_deref_read (o : option point) (Q : point → Prop) :
  (is_Some o → ∀ p : point, Q p) → wp (deref o) Q type_error.
Proof. destruct o as [p|]; simpl; [intros H; apply H; eauto | reflexivity]. Qed.

Lemma wp_convert_reads (o0 o1 o2 o3 : option point) (Q : path → Prop) :
  (is_Some o0 → is_Some o1 → is_Some o2 → is_Some o3 → ∀ c : path, Q c) →
  wp (pathBasis.convert o0 o1 o2 o3) Q type_error.
Proof.
  intros H. destruct o0, o1, o2, o3; simpl; try reflexivity. apply H; eauto.
Qed.

Lemma wp_segment_reads (o0 o1 o2 o3 : option point) (Q : segment → Prop) :
  (is_Some o0 → is_Some o1 → is_Some o2 → is_Some o3 → ∀ s : segment, Q s) →
  wp (pathBasis.segment o0 o1 o2 o3) Q type_error.
Proof.
  intros H. destruct o0, o1, o2, o3; simpl; try reflexivity. apply H; eauto.
Qed.

Lemma is_Some_at_index {A : Type} (a : list A) (i : Z) :
  is_Some a.[i] → (0 <= i < Z.of_nat (length a))%Z.
Proof. intros [v Hv]. exact (at_index_bound _ _ _ Hv). Qed.

Section OutOfBounds.
Variables (points : list point) (from : option Z) (to : Z).
Hypothesis three : (3 <= range_length points from to)%Z.
Hypothesis outside : ¬ in_bounds points from to.

Lemma outside_range :
  ∃ L f t : Z, range points from to = (L, f, t) ∧ range points (Some f) t = (L, f, t) ∧
    (L <=? 2)%Z = false ∧ (3 <= L)%Z ∧ t = (f + L - 1)%Z ∧
    ((0 <= f)%Z → (t < Z.of_nat (length points))%Z → False).
Proof using three outside.
  destruct (driver_range points from to three) as (L & f & t & E & En & Hle).
  exists L, f, t. split; [exact E|]. split; [exact En|]. split; [exact Hle|].
  split; [apply Z.leb_gt in Hle; lia|].
  split.
  - unfold range in E. destruct from as [f0|]; injection E as <- <- <-; lia.
  - intros Hf Ht. apply outside. unfold in_bounds. rewrite E. split; assumption.
Qed.

Lemma curveBasis_outside : curveBasis points from to = Fail TypeError.
Proof using three outside.
  destruct outside_range as (L & f & t & E & _ & Hle & HL & Ht & Hout).
  apply wp_fails. unfold curveBasis. rewrite E, Hle. cbv zeta.
  apply wp_bind, wp_convert_reads. intros H0 _ _ H1 c.
  apply is_Some_at_index in H0, H1.
  apply wp_bind. eapply wp_mono.
  - apply (wp_for_range
      (fun i (_ : option point * option point * option point * option point * path) =>
         (i <= Z.of_nat (length points))%Z)).
    + lia.
    + lia.
    + intros j [[[[p0 p1] p2] p3] pth] Hj Hi.
      apply wp_bind, wp_convert_reads. intros _ _ _ Hr c'.
      apply is_Some_at_index in Hr. simpl. lia.
  - intros [[[[p0 p1] p2] p3] pth] Hi. exfalso. apply Hout; lia.
Qed.

Lemma curveBasisSegments_outside : curveBasisSegments points from to = Fail TypeError.
Proof using three outside.
  destruct outside_range as (L & f & t & E & _ & Hle & HL & Ht & Hout).
  apply wp_fails. unfold curveBasisSegments. rewrite E, Hle. cbv zeta.
  apply wp_bind, wp_segment_reads. intros H0 _ _ _ s.
  apply wp_bind, wp_convert_reads. intros _ _ _ H2 c.
  apply is_Some_at_index in H0, H2.
  apply wp_bind. eapply wp_mono.
  - apply (wp_for_range
      (fun i (_ : option point * option point * option point * option point
                  * list segment) =>
         (i <= Z.of_nat (length points))%Z)).
    + lia.
    + lia.
    + intros j [[[[p0 p1] p2] p3] paths] Hj Hi.
      apply wp_bind, wp_segment_reads. intros _ _ _ Hr s'.
      apply is_Some_at_index in Hr. simpl. lia.
  - intros [[[[p0 p1] p2] p3] paths] Hi. exfalso. apply Hout; lia.
Qed.

Lemma cardinalTangents_outside (tension : R) :
  cardinalTangents points tension from to = Fail TypeError.
Proof using three outside.
  destruct outside_range as (L & f & t & E & _ & Hle & HL & Ht & Hout).
  apply wp_fails. unfold cardinalTangents. rewrite E. cbv zeta.
  apply wp_bind. eapply wp_mono.
  - apply (wp_for_range
      (fun i '(ts, p0, p1, p2) =>
         p0 = points.[i - 3] ∧ p1 = points.[i - 2] ∧ p2 = points.[i - 1] ∧
         (i = (f + 3)%Z ∨ (0 <= f)%Z))).
    + lia.
    + split; [f_equal; lia|]. split; [f_equal; lia|]. split; [f_equal; lia|].
      left. reflexivity.
    + intros j [[[ts p0] p1] p2] Hj (-> & -> & -> & Hf).
      apply wp_bind, wp_deref_read. intros _ q2.
      apply wp_bind, wp_deref_read. intros H0 q0. simpl.
      apply is_Some_at_index in H0.
      split; [f_equal; lia|]. split; [f_equal; lia|]. split; [f_equal; lia|].
      right. lia.
  - intros [[[ts p0] p1] p2] (-> & -> & -> & Hf).
    apply wp_bind, wp_deref_read. intros H2 q2.
    apply wp_bind, wp_deref_read. intros H0 q0.
    apply is_Some_at_index in H0, H2. simpl. apply Hout; lia.
Qed.

Lemma monotoneTangents_outside : monotoneTangents points from to = Fail TypeError.
Proof using three outside.
  destruct outside_range as (L & f & t & E & _ & Hle & HL & Ht & Hout).
  apply wp_fails. unfold monotoneTangents. rewrite E.
  apply wp_bind. unfold monotone.secants. eapply wp_mono.
  - apply (wp_for_range
      (fun k (_ : gmap Z R) =>
         k = 0%Z ∨ ((0 <= f)%Z ∧ (f + k < Z.of_nat (length points))%Z))).
    + lia.
    + left. reflexivity.
    + intros k d Hk Hi. cbv zeta.
      apply wp_bind, wp_deref_read. intros H1 q1.
      apply wp_bind, wp_deref_read. intros H0 q0.
      apply is_Some_at_index in H0, H1.
      destruct (secant_returns q0 q1) as [v ->]. simpl. right. lia.
  - intros d Hi. simpl in Hi. exfalso. apply Hout; lia.
Qed.

Lemma drivers_outside (tension : R) :
  curveCardinal points tension from to = Fail TypeError ∧
  curveCardinalSegments points tension from to = Fail TypeError ∧
  curveMonotone points from to = Fail TypeError ∧
  curveMonotoneSegments points from to = Fail TypeError.
Proof using three outside.
  rewrite (curveCardinal_unfold points from to three),
          (curveCardinalSegments_unfold points from to three),
          (curveMonotone_unfold points from to three),
          (curveMonotoneSegments_unfold points from to three).
  rewrite cardinalTangents_outside, monotoneTangents_outside. auto.
Qed.

End OutOfBounds.

(** X14. A range of [L >= 3] points that leaves the array ([from < 0] or
    [to >= points.length]) makes each of the six drivers throw a
    [TypeError]: none returns a path. *)
Theorem out_of_bounds_type_error (points : list point) (tension : R)
    (from : option Z) (to : Z) :
  (3 <= range_length points from to)%Z →
  ¬ in_bounds points from to →
  curveBasis points from to = Fail TypeError ∧
  curveBasisSegments points from to = Fail TypeError ∧
  curveCardinal points tension from to = Fail TypeError ∧
  curveCardinalSegments points tension from to = Fail TypeError ∧
  curveMonotone points from to = Fail TypeError ∧
  curveMonotoneSegments points from to = Fail TypeError.
Proof.
  intros HL Hout.
  split; [exact (curveBasis_outside points from to HL Hout)|].
  split; [exact (curveBasisSegments_outside points from to HL Hout)|].
  exact (drivers_outside points from to HL Hout tension).
Qed.

Lemma out_of_bounds_type_error_witness :
  let points := [Point 0 0; Point 1 2; Point 3 1; Point 4 4] in
  curveBasis points (Some 1%Z) 4 = Fail TypeError ∧
  curveMonotoneSegments points (Some 1%Z) 4 = Fail TypeError.
Proof.
  destruct (out_of_bounds_type_error
              [Point 0 0; Point 1 2; Point 3 1; Point 4 4] 0 (Some 1%Z) 4)
    as (H1 & _ & _ & _ & _ & H6).
  - vm_compute. discriminate.
  - vm_compute. intros [_ H]. discriminate H.
  - split; [exact H1 | exact H6].
Defined.

(** ** The tangent functions below three points *)

(** Below three points the loop of [cardinalTangents] does not run and the
    push after it reads [points[from]] and [points[from + 2]]. *)
Lemma cardinalTangents_below_three (points : list point) (tension : R)
    (from : option Z) (to : Z) :
  (range_length points from to <= 2)%Z →
  cardinalTangents points tension from to =
    q2 ← deref points.[range_start points from to + 2];
    q0 ← deref points.[range_start points from to];
    Ok [cardinal_tangent tension q0 q2].
Proof.
  unfold range_length, range_start, cardinalTangents.
  destruct (range points from to) as [[L f] t] eqn:E. simpl. intros HL.
  assert (Ht : t = (f + L - 1)%Z).
  { unfold range in E. destruct from as [f0|]; injection E as <- <- <-; lia. }
  rewrite for_range_empty by lia. reflexivity.
Qed.

(** X15. On a range of at most two points [cardinalTangents] does not
    return the empty array: its loop does not run and the push after it
    computes one tangent from [points[from]] and [points[from + 2]], a cell
    past the end of the range.  It returns that single tangent when both
    cells are defined and throws a [TypeError] otherwise, as it always does
    on the default range. *)
Theorem cardinalTangents_short_range (points : list point) (tension : R)
    (from : option Z) (to : Z) :
  (range_length points from to <= 2)%Z →
  (∀ q0 q2 : point,
     points.[range_start points from to] = Some q0 →
     points.[range_start points from to + 2] = Some q2 →
     cardinalTangents points tension from to = Ok [cardinal_tangent tension q0 q2]) ∧
  (points.[range_start points from to] = None ∨
   points.[range_start points from to + 2] = None →
   cardinalTangents points tension from to = Fail TypeError) ∧
  (from = None → cardinalTangents points tension from to = Fail TypeError).
Proof.
  intros HL. rewrite (cardinalTangents_below_three points tension from to HL).
  split; [|split].
  - intros q0 q2 -> ->. reflexivity.
  - intros [-> | ->]; [|reflexivity].
    destruct (points.[range_start points from to + 2]); reflexivity.
  - intros ->. unfold range_length, range_start in *. simpl in *.
    change (0 + 2)%Z with 2%Z.
    replace (points.[2]) with (@None point); [reflexivity|].
    symmetry. rewrite at_index_lookup by lia. apply lookup_ge_None_2. lia.
Qed.

Lemma cardinalTangents_short_range_witness :
  cardinalTangents [Point 0 0; Point 1 2; Point 3 1; Point 4 4] 0 (Some 0%Z) 1 =
    Ok [cardinal_tangent 0 (Point 0 0) (Point 3 1)] ∧
  cardinalTangents [Point 0 0; Point 1 2] 0 None 0 = Fail TypeError.
Proof.
  split.
  - apply (cardinalTangents_short_range
             [Point 0 0; Point 1 2; Point 3 1; Point 4 4] 0 (Some 0%Z) 1);
      [vm_compute; discriminate | reflexivity | reflexivity].
  - apply (cardinalTangents_short_range [Point 0 0; Point 1 2] 0 None 0);
      [vm_compute; discriminate | reflexivity].
Defined.

(** ** The clamp of steps 4 and 5 *)








